(** * packet-ts: the binary packet codec ([PacketWriter] / [PacketReader])

    A shallow embedding of [src/PacketWriter.ts] and [src/PacketReader.ts].

    Conventions of the embedding.
    - A JavaScript [number] that holds an integer is a [Z]; the 32-bit
      conversions performed by the bitwise operators are written out
      ([JS.ToInt32], [JS.ToUint32]).  A [bigint] is a [Z] as well.
    - A [number] handed to a float write is an IEEE-754 datum
      ([spec_float], binary64); NaN is one value.
    - [number[]] and [Uint8Array] are [list Z]; storing into a [Uint8Array]
      reduces modulo 256 ([Uint8Array_from]); an out-of-range element read
      is [None] (JavaScript [undefined]).  The [Uint8Array] of a reader
      spans its whole [ArrayBuffer].
    - A JavaScript string is the list of its UTF-16 code units.
    - A method is a function from the object's state to a result and the
      new state; [throw] is the [Throw] outcome, and the state it carries
      is the state at the time of the throw.
    - A call that spreads an array into its arguments, [f(...xs)], throws
      a [RangeError] when the array has more elements than the engine
      takes as the arguments of one call; that number is a parameter of
      the model ([Engine]).
    - What the classes take from the platform ([DataView], typed arrays,
      [TextEncoder], [TextDecoder]) follows ECMAScript and the WHATWG
      Encoding Standard.

    The first part holds the model, the second part its properties. *)

From Stdlib Require Import String Ascii.
From Stdlib Require Import ZArith List Lia Bool.
From Stdlib Require Import Floats.SpecFloat.
Import ListNotations.
Local Open Scope Z_scope.

(** ** The ECMAScript operators the codec uses *)

Module JS.

(** [ToInt32] and [ToUint32] of an integral number. *)
Definition ToInt32 (x : Z) : Z :=
  let m := x mod 2 ^ 32 in
  if 2 ^ 31 <=? m then m - 2 ^ 32 else m.

Definition ToUint32 (x : Z) : Z := x mod 2 ^ 32.

(** [x & y], [x | y], [x << n], [x >> n], [x >>> n] on numbers. *)
Definition band (x y : Z) : Z := Z.land (ToInt32 x) (ToInt32 y).
Definition bor (x y : Z) : Z := Z.lor (ToInt32 x) (ToInt32 y).
Definition shl (x n : Z) : Z :=
  ToInt32 (Z.shiftl (ToInt32 x) (ToUint32 n mod 32)).
Definition sar (x n : Z) : Z := Z.shiftr (ToInt32 x) (ToUint32 n mod 32).
Definition shr (x n : Z) : Z := Z.shiftr (ToUint32 x) (ToUint32 n mod 32).

(** A possibly [undefined] array element used as an operand of a bitwise
    operator: [ToInt32(undefined) = 0]. *)
Definition num (x : option Z) : Z :=
  match x with Some v => v | None => 0 end.

End JS.

(** ** Typed arrays *)

(** [new Uint8Array(xs)]: every element is stored modulo 256. *)
Definition Uint8Array_from (xs : list Z) : list Z :=
  map (fun x => x mod 256) xs.

Definition len (d : list Z) : Z := Z.of_nat (length d).

(** [d[i]]: [undefined] outside the array. *)
Definition get (d : list Z) (i : Z) : option Z :=
  if (0 <=? i) && (i <? len d) then nth_error d (Z.to_nat i) else None.

(** [d.slice(start, end)] with the relative-index rules of
    [%TypedArray%.prototype.slice]. *)
Definition rel_index (n i : Z) : Z :=
  if i <? 0 then Z.max (n + i) 0 else Z.min i n.

Definition slice (d : list Z) (start stop : Z) : list Z :=
  let a := rel_index (len d) start in
  let b := rel_index (len d) stop in
  firstn (Z.to_nat (b - a)) (skipn (Z.to_nat a) d).

Definition is_byte (b : Z) : Prop := 0 <= b < 256.

(** Little-endian value of a byte sequence, and the little-endian bytes of
    a value: the layout [DataView] uses with [littleEndian = true]. *)
Fixpoint le_value (bs : list Z) : Z :=
  match bs with
  | [] => 0
  | b :: t => b + 256 * le_value t
  end.

Fixpoint le_bytes (n : nat) (v : Z) : list Z :=
  match n with
  | O => []
  | S k => v mod 256 :: le_bytes k (v / 256)
  end.

(** ** Text encoding: [TextEncoder] and [TextDecoder('utf-8')]

    The platform's UTF-8 codec, following the WHATWG Encoding Standard:
    the encoder first replaces lone surrogates by U+FFFD, the decoder
    replaces malformed sequences by U+FFFD and, with the default
    [ignoreBOM = false], drops one leading U+FEFF. *)

Module Text.

Definition jsstring := list Z.

Definition code_unit (c : Z) : Prop := 0 <= c < 65536.
Definition is_lead (c : Z) : bool := (0xD800 <=? c) && (c <=? 0xDBFF).
Definition is_trail (c : Z) : bool := (0xDC00 <=? c) && (c <=? 0xDFFF).

(** A Unicode scalar value: a code point that is not a surrogate. *)
Definition scalar (c : Z) : Prop :=
  0 <= c < 0xD800 \/ 0xE000 <= c <= 0x10FFFF.

(** The code points of a JavaScript string, lone surrogates replaced. *)
Fixpoint to_scalars (s : jsstring) : list Z :=
  match s with
  | [] => []
  | c :: t =>
      if is_lead c then
        match t with
        | d :: t' =>
            if is_trail d
            then 0x10000 + Z.shiftl (c - 0xD800) 10 + (d - 0xDC00) :: to_scalars t'
            else 0xFFFD :: to_scalars t
        | [] => [0xFFFD]
        end
      else if is_trail c then 0xFFFD :: to_scalars t
      else c :: to_scalars t
  end.

(** [String.prototype.isWellFormed]: no lone surrogate. *)
Fixpoint isWellFormed (s : jsstring) : bool :=
  match s with
  | [] => true
  | c :: t =>
      if is_lead c then
        match t with
        | d :: t' => is_trail d && isWellFormed t'
        | [] => false
        end
      else negb (is_trail c) && isWellFormed t
  end.

(** The continuation bytes of the UTF-8 encoder: while [count > 0], append
    [0x80 | ((c >> (6 * (count - 1))) & 0x3F)]. *)
Fixpoint utf8_tail (c : Z) (count : nat) : list Z :=
  match count with
  | O => []
  | S k => Z.lor 0x80 (Z.land (Z.shiftr c (6 * Z.of_nat k)) 0x3F) :: utf8_tail c k
  end.

Definition utf8_encode_cp (c : Z) : list Z :=
  if c <=? 0x7F then [c]
  else
    let '(count, first) :=
      if c <=? 0x7FF then (1%nat, 0xC0)
      else if c <=? 0xFFFF then (2%nat, 0xE0)
      else (3%nat, 0xF0) in
    Z.shiftr c (6 * Z.of_nat count) + first :: utf8_tail c count.

Definition utf8_encode (cs : list Z) : list Z := flat_map utf8_encode_cp cs.

Definition TextEncoder_encode (s : jsstring) : list Z :=
  utf8_encode (to_scalars s).

(** The state of the UTF-8 decoder. *)
Record utf8_decoder := mk_utf8 {
  code_point : Z;
  bytes_seen : Z;
  bytes_needed : Z;
  lower_boundary : Z;
  upper_boundary : Z
}.

Definition utf8_init : utf8_decoder := mk_utf8 0 0 0 0x80 0xBF.

(** The handler when no continuation byte is pending. *)
Definition utf8_start (b : Z) : utf8_decoder * list Z :=
  if b <=? 0x7F then (utf8_init, [b])
  else if (0xC2 <=? b) && (b <=? 0xDF) then
    (mk_utf8 (Z.land b 0x1F) 0 1 0x80 0xBF, [])
  else if (0xE0 <=? b) && (b <=? 0xEF) then
    (mk_utf8 (Z.land b 0xF) 0 2
       (if b =? 0xE0 then 0xA0 else 0x80)
       (if b =? 0xED then 0x9F else 0xBF), [])
  else if (0xF0 <=? b) && (b <=? 0xF4) then
    (mk_utf8 (Z.land b 0x7) 0 3
       (if b =? 0xF0 then 0x90 else 0x80)
       (if b =? 0xF4 then 0x8F else 0xBF), [])
  else (utf8_init, [0xFFFD]).

(** One byte of input: the new state and the code points emitted.  A byte
    that is not a valid continuation is an error (U+FFFD) and is handled
    again from the initial state. *)
Definition utf8_handler (st : utf8_decoder) (b : Z) : utf8_decoder * list Z :=
  if bytes_needed st =? 0 then utf8_start b
  else if negb ((lower_boundary st <=? b) && (b <=? upper_boundary st)) then
    let '(st', out) := utf8_start b in (st', 0xFFFD :: out)
  else
    let cp := Z.lor (Z.shiftl (code_point st) 6) (Z.land b 0x3F) in
    let seen := bytes_seen st + 1 in
    if seen =? bytes_needed st then (utf8_init, [cp])
    else (mk_utf8 cp seen (bytes_needed st) 0x80 0xBF, []).

(** The whole input; a sequence cut short by the end of the input is one
    error. *)
Fixpoint utf8_run (st : utf8_decoder) (bytes : list Z) : list Z :=
  match bytes with
  | [] => if bytes_needed st =? 0 then [] else [0xFFFD]
  | b :: t => let '(st', out) := utf8_handler st b in out ++ utf8_run st' t
  end.

Definition utf8_decode (bytes : list Z) : list Z := utf8_run utf8_init bytes.

Definition strip_bom (cs : list Z) : list Z :=
  match cs with
  | c :: t => if c =? 0xFEFF then t else cs
  | [] => []
  end.

(** The code units of a code point. *)
Definition utf16_units (c : Z) : list Z :=
  if c <? 0x10000 then [c]
  else [0xD800 + Z.shiftr (c - 0x10000) 10; 0xDC00 + Z.land (c - 0x10000) 0x3FF].

Definition utf16_encode (cs : list Z) : jsstring := flat_map utf16_units cs.

Definition TextDecoder_decode (bytes : list Z) : jsstring :=
  utf16_encode (strip_bom (utf8_decode bytes)).

(** An ASCII literal as a JavaScript string. *)
Fixpoint of_ascii (s : string) : jsstring :=
  match s with
  | EmptyString => []
  | String a t => Z.of_N (N_of_ascii a) :: of_ascii t
  end.

End Text.

(** ** IEEE-754 interchange formats: what [DataView] stores for a float

    [mw] and [ew] are the widths of the fraction and exponent fields
    (23 and 8 for binary32, 52 and 11 for binary64).  A number is a
    [spec_float]; [to_bits] is its encoding as an unsigned integer of
    [1 + ew + mw] bits.  ECMAScript leaves the encoding of NaN to the
    implementation; the quiet NaN with an empty payload is taken here. *)

Module IEEE.

Section Format.

Variables mw ew : Z.

Definition prec : Z := mw + 1.
Definition emax : Z := 2 ^ (ew - 1).
Definition emin : Z := 3 - emax - prec.

Definition join_bits (s : bool) (m e : Z) : Z :=
  ((if s then 2 ^ ew else 0) + e) * 2 ^ mw + m.

Definition to_bits (x : spec_float) : Z :=
  match x with
  | S754_zero s => join_bits s 0 0
  | S754_infinity s => join_bits s 0 (2 ^ ew - 1)
  | S754_nan => join_bits false (2 ^ (mw - 1)) (2 ^ ew - 1)
  | S754_finite s m e =>
      if 2 ^ mw <=? Zpos m
      then join_bits s (Zpos m - 2 ^ mw) (e - emin + 1)
      else join_bits s (Zpos m) 0
  end.

Definition of_bits (x : Z) : spec_float :=
  let s := 2 ^ ew <=? x / 2 ^ mw in
  let m := x mod 2 ^ mw in
  let e := (x / 2 ^ mw) mod 2 ^ ew in
  if e =? 0 then
    match m with
    | Zpos p => S754_finite s p emin
    | _ => S754_zero s
    end
  else if e =? 2 ^ ew - 1 then
    if m =? 0 then S754_infinity s else S754_nan
  else
    match m + 2 ^ mw with
    | Zpos p => S754_finite s p (e + emin - 1)
    | _ => S754_nan
    end.

(** Conversion of a number to this format, rounding to nearest, ties to
    even. *)
Definition convert (x : spec_float) : spec_float :=
  match x with
  | S754_finite s m e => binary_round prec emax s m e
  | _ => x
  end.

Definition valid (x : spec_float) : Prop := valid_binary prec emax x = true.

End Format.

(** The two formats of the codec. *)
Definition valid32 : spec_float -> Prop := valid 23 8.
Definition valid64 : spec_float -> Prop := valid 52 11.
Definition to_float32 : spec_float -> spec_float := convert 23 8.
Definition to_float64 : spec_float -> spec_float := convert 52 11.

End IEEE.

(** ** [DataView] accessors, little-endian *)

Module DataView.

(** [setInt32(0, v, true)] and [getInt32(0, true)] on a 4-byte buffer. *)
Definition setInt32 (v : Z) : list Z := le_bytes 4 (JS.ToInt32 v).
Definition getInt32 (bs : list Z) : Z :=
  let u := le_value bs in if 2 ^ 31 <=? u then u - 2 ^ 32 else u.

(** [setBigInt64(0, v, true)] and [getBigInt64(0, true)]. *)
Definition setBigInt64 (v : Z) : list Z := le_bytes 8 v.
Definition getBigInt64 (bs : list Z) : Z :=
  let u := le_value bs in if 2 ^ 63 <=? u then u - 2 ^ 64 else u.

(** [new DataView(buffer, byteOffset, byteLength)]: the bytes in view, or
    [None] for the [RangeError] of a view that leaves the buffer. *)
Definition create (buf : list Z) (byteOffset byteLength : Z) : option (list Z) :=
  if (byteOffset <? 0) || (byteOffset >? len buf)
     || (byteOffset + byteLength >? len buf)
  then None
  else Some (firstn (Z.to_nat byteLength) (skipn (Z.to_nat byteOffset) buf)).

(** [setFloat32(0, v, true)] rounds the number to binary32;
    [getFloat32(0, true)] returns the stored binary32 value as a number. *)
Definition setFloat32 (v : spec_float) : list Z :=
  le_bytes 4 (IEEE.to_bits 23 8 (IEEE.to_float32 v)).
Definition getFloat32 (bs : list Z) : spec_float :=
  IEEE.to_float64 (IEEE.of_bits 23 8 (le_value bs)).

Definition setFloat64 (v : spec_float) : list Z :=
  le_bytes 8 (IEEE.to_bits 52 11 v).
Definition getFloat64 (bs : list Z) : spec_float :=
  IEEE.of_bits 52 11 (le_value bs).

End DataView.

(** ** Exceptions *)

Inductive exn :=
| Error (message : string)   (* throw new Error(message) *)
| TypeError                  (* BigInt(undefined) *)
| RangeError.                (* new DataView outside the buffer;
                                f(...xs) with more arguments than a call takes *)

Inductive outcome (A : Type) :=
| Return (a : A)
| Throw (e : exn).
Arguments Return {A} a.
Arguments Throw {A} e.

(** ** The engine *)

(** A call [f(...xs)] passes every element of [xs] as an argument of its
    own.  ECMAScript sets no bound on the number of arguments of a call;
    an engine does, by the stack it runs on, and throws a [RangeError]
    beyond its bound.  The bound is a parameter of the model, taken to
    be at least 65536: [extra_arguments] is what an engine takes beyond
    that. *)
Class Engine := { extra_arguments : N }.

Definition max_arguments {E : Engine} : Z := 65536 + Z.of_N extra_arguments.

(** ** [PacketWriter] *)

Record PacketWriter := mkWriter {
  buffer : list Z;     (* private buffer: number[] *)
  packetId : Z         (* private packetId: number *)
}.

(** A method of the writer returns nothing or throws, and leaves a writer
    behind. *)
Definition command : Type := PacketWriter -> outcome unit * PacketWriter.

Definition skip : command := fun w => (Return tt, w).

Definition and_then (m k : command) : command :=
  fun w =>
    match m w with
    | (Return _, w') => k w'
    | (Throw e, w') => (Throw e, w')
    end.

Notation "m >> k" := (and_then m k) (at level 61, right associativity).

(** The writer with [xs] behind its buffer. *)
Definition append (xs : list Z) (w : PacketWriter) : PacketWriter :=
  mkWriter (buffer w ++ xs) (packetId w).

(** [this.buffer.push(x)] *)
Definition push (x : Z) : command :=
  fun w => (Return tt, append [x] w).

(** [this.buffer.push(...xs)]: a call with one argument for each element
    of [xs], which throws before anything is pushed when they are too
    many. *)
Definition push_all {E : Engine} (xs : list Z) : command :=
  fun w =>
    if len xs >? max_arguments
    then (Throw RangeError, w)
    else (Return tt, append xs w).

Definition writeUInt8 (value : Z) : command :=
  push (JS.band value 0xFF).

Definition writeUInt16 (value : Z) : command :=
  push (JS.band value 0xFF) >>
  push (JS.band (JS.sar value 8) 0xFF).

Definition writeUInt32 (value : Z) : command :=
  push (JS.band value 0xFF) >>
  push (JS.band (JS.sar value 8) 0xFF) >>
  push (JS.band (JS.sar value 16) 0xFF) >>
  push (JS.band (JS.sar value 24) 0xFF).

(** [for (let i = 0; i < 8; i++) push(Number((bigValue >> BigInt(i * 8)) & 0xFFn))] *)
Definition writeUInt64 (value : Z) : command :=
  fold_right
    (fun i rest => push (Z.land (Z.shiftr value (i * 8)) 0xFF) >> rest)
    skip [0; 1; 2; 3; 4; 5; 6; 7].

Definition writeInt32 {E : Engine} (value : Z) : command :=
  push_all (DataView.setInt32 value).

Definition writeInt64 {E : Engine} (value : Z) : command :=
  push_all (DataView.setBigInt64 value).

Definition writeFloat32 {E : Engine} (value : spec_float) : command :=
  push_all (DataView.setFloat32 value).

Definition writeFloat64 {E : Engine} (value : spec_float) : command :=
  push_all (DataView.setFloat64 value).

Definition writeBool (value : bool) : command :=
  push (if value then 0x01 else 0x00).

Definition writeString {E : Engine} (value : Text.jsstring) : command :=
  let utf8Bytes := Text.TextEncoder_encode value in
  writeUInt16 (len utf8Bytes) >>
  push_all utf8Bytes.

Definition writeBytes {E : Engine} (bytes : list Z) : command :=
  push_all bytes.

(** [constructor(packetId)]: the writer that [writeUInt16], which does not
    throw, leaves behind. *)
Definition new_PacketWriter (id : Z) : PacketWriter :=
  snd (writeUInt16 id (mkWriter [] id)).

(** [arr[i] = v] on a [Uint8Array] (ignored outside the array) and
    [arr.set(src, offset)]. *)
Fixpoint Uint8Array_store (arr : list Z) (i : nat) (v : Z) : list Z :=
  match arr, i with
  | [], _ => []
  | _ :: t, O => v mod 256 :: t
  | x :: t, S k => x :: Uint8Array_store t k v
  end.

Definition Uint8Array_set (arr src : list Z) (off : nat) : list Z :=
  firstn off arr ++ Uint8Array_from src ++ skipn (off + length src) arr.

(** The three queries return their result together with the writer they
    leave behind. *)
Definition getBytes (w : PacketWriter) : list Z * PacketWriter :=
  let payloadLength := len (buffer w) in
  let fullPacket := repeat 0 (2 + length (buffer w)) in
  let fullPacket := Uint8Array_store fullPacket 0 (JS.band payloadLength 0xFF) in
  let fullPacket :=
    Uint8Array_store fullPacket 1 (JS.band (JS.sar payloadLength 8) 0xFF) in
  let fullPacket := Uint8Array_set fullPacket (buffer w) 2 in
  (fullPacket, w).

Definition getData (w : PacketWriter) : list Z * PacketWriter :=
  (Uint8Array_from (buffer w), w).

Definition getPacketId (w : PacketWriter) : Z * PacketWriter :=
  (packetId w, w).

(** The caller-issued writes, as data. *)
Inductive write_op :=
| WUInt8 (v : Z) | WUInt16 (v : Z) | WUInt32 (v : Z) | WUInt64 (v : Z)
| WInt32 (v : Z) | WInt64 (v : Z)
| WFloat32 (v : spec_float) | WFloat64 (v : spec_float)
| WBool (v : bool) | WString (v : Text.jsstring) | WBytes (v : list Z).

Definition write {E : Engine} (op : write_op) : command :=
  match op with
  | WUInt8 v => writeUInt8 v
  | WUInt16 v => writeUInt16 v
  | WUInt32 v => writeUInt32 v
  | WUInt64 v => writeUInt64 v
  | WInt32 v => writeInt32 v
  | WInt64 v => writeInt64 v
  | WFloat32 v => writeFloat32 v
  | WFloat64 v => writeFloat64 v
  | WBool v => writeBool v
  | WString v => writeString v
  | WBytes v => writeBytes v
  end.

(** One write after the other, up to the first that throws. *)
Fixpoint writes {E : Engine} (ops : list write_op) : command :=
  match ops with
  | [] => skip
  | op :: t => write op >> writes t
  end.

(** The bytes a write appends when it returns. *)
Definition encoding (op : write_op) : list Z :=
  match op with
  | WUInt8 v => [v mod 256]
  | WUInt16 v => le_bytes 2 v
  | WUInt32 v => le_bytes 4 v
  | WUInt64 v => le_bytes 8 v
  | WInt32 v => DataView.setInt32 v
  | WInt64 v => DataView.setBigInt64 v
  | WFloat32 v => DataView.setFloat32 v
  | WFloat64 v => DataView.setFloat64 v
  | WBool v => [if v then 1 else 0]
  | WString v =>
      le_bytes 2 (len (Text.TextEncoder_encode v)) ++ Text.TextEncoder_encode v
  | WBytes v => v
  end.

(** The number of elements a write spreads into the arguments of one
    call. *)
Definition spread (op : write_op) : Z :=
  match op with
  | WInt32 v => len (DataView.setInt32 v)
  | WInt64 v => len (DataView.setBigInt64 v)
  | WFloat32 v => len (DataView.setFloat32 v)
  | WFloat64 v => len (DataView.setFloat64 v)
  | WString v => len (Text.TextEncoder_encode v)
  | WBytes v => len v
  | _ => 0
  end.

(** The writes whose spread the engine takes. *)
Definition fits {E : Engine} (op : write_op) : Prop :=
  spread op <= max_arguments.

(** The packet of the concrete scenario, and the outcome of its last
    write. *)
Definition scenario {E : Engine} : outcome unit * PacketWriter :=
  (writeString (Text.of_ascii "Hello") >> writeUInt32 12345 >> writeBool true)
    (new_PacketWriter 10001).

(** The queries, as data. *)
Inductive query := QBytes | QData | QPacketId.

Inductive answer := ABytes (bs : list Z) | ANumber (n : Z).

Definition ask (q : query) (w : PacketWriter) : answer * PacketWriter :=
  match q with
  | QBytes => let '(bs, w') := getBytes w in (ABytes bs, w')
  | QData => let '(bs, w') := getData w in (ABytes bs, w')
  | QPacketId => let '(n, w') := getPacketId w in (ANumber n, w')
  end.

Definition ask_all (qs : list query) (w : PacketWriter) : PacketWriter :=
  fold_left (fun w q => snd (ask q w)) qs w.

(** The values each write represents on the wire: the integers of its
    width, the binary32 numbers for [writeFloat32], the binary64 numbers
    for [writeFloat64], the strings that are well formed, do not start
    with U+FEFF and whose UTF-8 form fits the 16-bit length prefix, and
    the byte arrays that one call takes as its arguments. *)
Definition in_domain {E : Engine} (op : write_op) : Prop :=
  match op with
  | WUInt8 v => 0 <= v < 2 ^ 8
  | WUInt16 v => 0 <= v < 2 ^ 16
  | WUInt32 v => 0 <= v < 2 ^ 32
  | WUInt64 v => 0 <= v < 2 ^ 64
  | WInt32 v => - 2 ^ 31 <= v < 2 ^ 31
  | WInt64 v => - 2 ^ 63 <= v < 2 ^ 63
  | WFloat32 v => exists f, IEEE.valid32 f /\ v = IEEE.to_float64 f
  | WFloat64 v => IEEE.valid64 v
  | WBool _ => True
  | WString s =>
      Forall Text.code_unit s /\ Text.isWellFormed s = true /\
      hd 0 s <> 0xFEFF /\ len (Text.TextEncoder_encode s) <= 65535
  | WBytes bs => Forall is_byte bs /\ len bs <= max_arguments
  end.

(** An engine for the examples: its calls take 131072 arguments. *)
Definition engine_131072 : Engine := {| extra_arguments := 65536 |}.

(** ** [PacketReader] *)

Record PacketReader := mkReader {
  data : list Z;       (* private data: Uint8Array *)
  offset : Z           (* private offset: number = 0 *)
}.

Definition method (A : Type) : Type := PacketReader -> outcome A * PacketReader.

Definition ret {A} (a : A) : method A := fun r => (Return a, r).
Definition throw {A} (e : exn) : method A := fun r => (Throw e, r).
Definition bind {A B} (m : method A) (k : A -> method B) : method B :=
  fun r =>
    match m r with
    | (Return a, r') => k a r'
    | (Throw e, r') => (Throw e, r')
    end.
Definition set_offset (o : Z) : method unit :=
  fun r => (Return tt, mkReader (data r) o).
Definition this : method PacketReader := fun r => (Return r, r).

Notation "x <- m ;; k" := (bind m (fun x => k))
  (at level 61, m at next level, right associativity).
Notation "m ;;; k" := (bind m (fun _ => k))
  (at level 61, right associativity).

(** [constructor(data)] *)
Definition new_PacketReader (d : list Z) : PacketReader := mkReader d 0.

(** [new DataView(this.data.buffer, this.data.byteOffset + this.offset, n)],
    for [data] a [Uint8Array] that spans its whole buffer. *)
Definition view (n : Z) : method (list Z) :=
  r <- this ;;
  match DataView.create (data r) (offset r) n with
  | Some bs => ret bs
  | None => throw RangeError
  end.

Definition readUInt8 : method (option Z) :=
  r <- this ;;
  if offset r + 1 >? len (data r)
  then throw (Error "PacketReader: Not enough data to read UInt8")
  else
    set_offset (offset r + 1) ;;;
    ret (get (data r) (offset r)).

Definition readUInt16 : method Z :=
  r <- this ;;
  if offset r + 2 >? len (data r)
  then throw (Error "PacketReader: Not enough data to read UInt16")
  else
    let value :=
      JS.bor (JS.num (get (data r) (offset r)))
             (JS.shl (JS.num (get (data r) (offset r + 1))) 8) in
    set_offset (offset r + 2) ;;;
    ret value.

Definition readUInt32 : method Z :=
  r <- this ;;
  if offset r + 4 >? len (data r)
  then throw (Error "PacketReader: Not enough data to read UInt32")
  else
    let value :=
      JS.bor (JS.bor (JS.bor
        (JS.num (get (data r) (offset r)))
        (JS.shl (JS.num (get (data r) (offset r + 1))) 8))
        (JS.shl (JS.num (get (data r) (offset r + 2))) 16))
        (JS.shl (JS.num (get (data r) (offset r + 3))) 24) in
    set_offset (offset r + 4) ;;;
    ret (JS.shr value 0).

(** [value |= BigInt(this.data[this.offset + i]) << BigInt(i * 8)] for the
    indices [ixs]; [BigInt(undefined)] is a [TypeError]. *)
Fixpoint readUInt64_loop (r : PacketReader) (ixs : list Z) (value : Z) : outcome Z :=
  match ixs with
  | [] => Return value
  | i :: t =>
      match get (data r) (offset r + i) with
      | Some b => readUInt64_loop r t (Z.lor value (Z.shiftl b (i * 8)))
      | None => Throw TypeError
      end
  end.

Definition readUInt64 : method Z :=
  r <- this ;;
  if offset r + 8 >? len (data r)
  then throw (Error "PacketReader: Not enough data to read UInt64")
  else
    match readUInt64_loop r [0; 1; 2; 3; 4; 5; 6; 7] 0 with
    | Return value => set_offset (offset r + 8) ;;; ret value
    | Throw e => throw e
    end.

Definition readInt32 : method Z :=
  r <- this ;;
  if offset r + 4 >? len (data r)
  then throw (Error "PacketReader: Not enough data to read Int32")
  else
    bs <- view 4 ;;
    let value := DataView.getInt32 bs in
    set_offset (offset r + 4) ;;;
    ret value.

Definition readInt64 : method Z :=
  r <- this ;;
  if offset r + 8 >? len (data r)
  then throw (Error "PacketReader: Not enough data to read Int64")
  else
    bs <- view 8 ;;
    let value := DataView.getBigInt64 bs in
    set_offset (offset r + 8) ;;;
    ret value.

Definition readFloat32 : method spec_float :=
  r <- this ;;
  if offset r + 4 >? len (data r)
  then throw (Error "PacketReader: Not enough data to read Float32")
  else
    bs <- view 4 ;;
    let value := DataView.getFloat32 bs in
    set_offset (offset r + 4) ;;;
    ret value.

Definition readFloat64 : method spec_float :=
  r <- this ;;
  if offset r + 8 >? len (data r)
  then throw (Error "PacketReader: Not enough data to read Float64")
  else
    bs <- view 8 ;;
    let value := DataView.getFloat64 bs in
    set_offset (offset r + 8) ;;;
    ret value.

(** [x !== 0] for an array element; [undefined !== 0] holds. *)
Definition strict_ne_0 (x : option Z) : bool :=
  match x with
  | Some v => negb (v =? 0)
  | None => true
  end.

Definition readBool : method bool :=
  b <- readUInt8 ;;
  ret (strict_ne_0 b).

Definition readString : method Text.jsstring :=
  length <- readUInt16 ;;
  r <- this ;;
  if offset r + length >? len (data r)
  then throw (Error "PacketReader: Not enough data to read string")
  else
    let bytes := slice (data r) (offset r) (offset r + length) in
    set_offset (offset r + length) ;;;
    ret (Text.TextDecoder_decode bytes).

Definition readBytes (length : Z) : method (list Z) :=
  r <- this ;;
  if offset r + length >? len (data r)
  then throw (Error "PacketReader: Not enough data to read bytes")
  else
    let bytes := slice (data r) (offset r) (offset r + length) in
    set_offset (offset r + length) ;;;
    ret bytes.

Definition isComplete : method bool :=
  r <- this ;; ret (offset r =? len (data r)).

Definition remaining : method Z :=
  r <- this ;; ret (len (data r) - offset r).

Definition reset : method unit := set_offset 0.

Definition getOffset : method Z :=
  r <- this ;; ret (offset r).

Definition setOffset (o : Z) : method unit :=
  r <- this ;;
  if (o <? 0) || (o >? len (data r))
  then throw (Error "PacketReader: Invalid offset")
  else set_offset o.

(** The state a call leaves behind, and its result. *)
Definition state_after {A} (m : method A) (r : PacketReader) : PacketReader :=
  snd (m r).
Definition result_of {A} (m : method A) (r : PacketReader) : outcome A :=
  fst (m r).

(** The invariant of the cursor. *)
Definition cursor_ok (r : PacketReader) : Prop :=
  0 <= offset r <= len (data r).

(** The out-of-data error of a read of the logical type [what]. *)
Definition out_of_data (what : string) : exn :=
  Error ("PacketReader: Not enough data to read " ++ what).

(** The read that matches a write returns its value and leaves the reader
    [r']. *)
Definition reads_back (op : write_op) (r r' : PacketReader) : Prop :=
  match op with
  | WUInt8 v => readUInt8 r = (Return (Some v), r')
  | WUInt16 v => readUInt16 r = (Return v, r')
  | WUInt32 v => readUInt32 r = (Return v, r')
  | WUInt64 v => readUInt64 r = (Return v, r')
  | WInt32 v => readInt32 r = (Return v, r')
  | WInt64 v => readInt64 r = (Return v, r')
  | WFloat32 v => readFloat32 r = (Return v, r')
  | WFloat64 v => readFloat64 r = (Return v, r')
  | WBool v => readBool r = (Return v, r')
  | WString v => readString r = (Return v, r')
  | WBytes v => readBytes (len v) r = (Return v, r')
  end.

Fixpoint reads_all (ops : list write_op) (r r' : PacketReader) : Prop :=
  match ops with
  | [] => r' = r
  | op :: t => exists r1, reads_back op r r1 /\ reads_all t r1 r'
  end.

(** The operations of the reader, as data. *)
Inductive reader_op :=
| RUInt8 | RUInt16 | RUInt32 | RUInt64 | RInt32 | RInt64
| RFloat32 | RFloat64 | RBool | RString | RBytes (length : Z)
| RIsComplete | RRemaining | RReset | RGetOffset | RSetOffset (o : Z).

(** The reader an operation leaves behind, whether it returns or throws. *)
Definition perform (op : reader_op) (r : PacketReader) : PacketReader :=
  match op with
  | RUInt8 => state_after readUInt8 r
  | RUInt16 => state_after readUInt16 r
  | RUInt32 => state_after readUInt32 r
  | RUInt64 => state_after readUInt64 r
  | RInt32 => state_after readInt32 r
  | RInt64 => state_after readInt64 r
  | RFloat32 => state_after readFloat32 r
  | RFloat64 => state_after readFloat64 r
  | RBool => state_after readBool r
  | RString => state_after readString r
  | RBytes n => state_after (readBytes n) r
  | RIsComplete => state_after isComplete r
  | RRemaining => state_after remaining r
  | RReset => state_after reset r
  | RGetOffset => state_after getOffset r
  | RSetOffset o => state_after (setOffset o) r
  end.

Definition nonnegative_length (op : reader_op) : Prop :=
  match op with
  | RBytes n => 0 <= n
  | _ => True
  end.

(** ** Outcomes of the operations, and sizes *)

(** The exception a call throws, if it throws. *)
Definition failure {A} (m : method A) (r : PacketReader) : option exn :=
  match result_of m r with
  | Return _ => None
  | Throw e => Some e
  end.

Definition op_failure (op : reader_op) (r : PacketReader) : option exn :=
  match op with
  | RUInt8 => failure readUInt8 r
  | RUInt16 => failure readUInt16 r
  | RUInt32 => failure readUInt32 r
  | RUInt64 => failure readUInt64 r
  | RInt32 => failure readInt32 r
  | RInt64 => failure readInt64 r
  | RFloat32 => failure readFloat32 r
  | RFloat64 => failure readFloat64 r
  | RBool => failure readBool r
  | RString => failure readString r
  | RBytes n => failure (readBytes n) r
  | RIsComplete => failure isComplete r
  | RRemaining => failure remaining r
  | RReset => failure reset r
  | RGetOffset => failure getOffset r
  | RSetOffset o => failure (setOffset o) r
  end.

(** The reads of a fixed width: the width their bounds check asks for and
    the type their error message names. *)
Definition fixed_width (op : reader_op) : option (Z * string) :=
  match op with
  | RUInt8 => Some (1, "UInt8"%string)
  | RUInt16 => Some (2, "UInt16"%string)
  | RUInt32 => Some (4, "UInt32"%string)
  | RUInt64 => Some (8, "UInt64"%string)
  | RInt32 => Some (4, "Int32"%string)
  | RInt64 => Some (8, "Int64"%string)
  | RFloat32 => Some (4, "Float32"%string)
  | RFloat64 => Some (8, "Float64"%string)
  | RBool => Some (1, "UInt8"%string)
  | _ => None
  end.


(** The number of bytes a write appends. *)
Definition width (op : write_op) : Z :=
  match op with
  | WUInt8 _ | WBool _ => 1
  | WUInt16 _ => 2
  | WUInt32 _ | WInt32 _ | WFloat32 _ => 4
  | WUInt64 _ | WInt64 _ | WFloat64 _ => 8
  | WString s => 2 + len (Text.TextEncoder_encode s)
  | WBytes v => len v
  end.

(** The arguments as their TypeScript types have them: a string is made of
    16-bit code units, a [Uint8Array] of bytes. *)
Definition well_typed (op : write_op) : Prop :=
  match op with
  | WString s => Forall Text.code_unit s
  | WBytes v => Forall is_byte v
  | _ => True
  end.

(** [BigInt.asIntN(64, v)], the conversion [setBigInt64] applies. *)
Definition asIntN64 (v : Z) : Z :=
  let m := v mod 2 ^ 64 in
  if 2 ^ 63 <=? m then m - 2 ^ 64 else m.

(** An integer write, and the value of its type that it puts on the wire. *)
Definition is_integer (op : write_op) : bool :=
  match op with
  | WUInt8 _ | WUInt16 _ | WUInt32 _ | WUInt64 _ | WInt32 _ | WInt64 _ => true
  | _ => false
  end.

Definition wrap (op : write_op) : write_op :=
  match op with
  | WUInt8 v => WUInt8 (v mod 2 ^ 8)
  | WUInt16 v => WUInt16 (v mod 2 ^ 16)
  | WUInt32 v => WUInt32 (v mod 2 ^ 32)
  | WUInt64 v => WUInt64 (v mod 2 ^ 64)
  | WInt32 v => WInt32 (JS.ToInt32 v)
  | WInt64 v => WInt64 (asIntN64 v)
  | _ => op
  end.

(** The state after a sequence of reader operations. *)
Definition perform_all (ops : list reader_op) (r : PacketReader) : PacketReader :=
  fold_left (fun r op => perform op r) ops r.

(** * Properties *)

(** ** The platform model on known values *)

Example TextEncoder_known :
  Text.TextEncoder_encode [0xE9; 0xE2A; 0xD83C; 0xDFAE] =
  [0xC3; 0xA9; 0xE0; 0xB8; 0xAA; 0xF0; 0x9F; 0x8E; 0xAE].
Proof. reflexivity. Qed.

Example TextDecoder_known :
  Text.TextDecoder_decode [0x41; 0xE0; 0x80; 0xC3] = [0x41; 0xFFFD; 0xFFFD; 0xFFFD] /\
  Text.TextDecoder_decode [0xEF; 0xBB; 0xBF; 0x41] = [0x41] /\
  Text.TextDecoder_decode [0xF0; 0x9F; 0x8E; 0xAE] = [0xD83C; 0xDFAE].
Proof. repeat split. Qed.

(** 1.5 and -2.5 as binary64, -2.5 and 0.1 (rounded up) as binary32, and
    1e39, which overflows binary32. *)
Example DataView_known :
  DataView.setFloat64 (S754_finite false 6755399441055744 (-52)) =
    [0; 0; 0; 0; 0; 0; 0xF8; 0x3F] /\
  DataView.setFloat64 (S754_finite true 5629499534213120 (-51)) =
    [0; 0; 0; 0; 0; 0; 0x04; 0xC0] /\
  DataView.setFloat32 (S754_finite true 5629499534213120 (-51)) =
    [0; 0; 0x20; 0xC0] /\
  DataView.setFloat32 (S754_finite false 7205759403792794 (-56)) =
    [0xCD; 0xCC; 0xCC; 0x3D] /\
  DataView.setFloat32 (S754_finite false 6617444900424221 77) =
    [0; 0; 0x80; 0x7F] /\
  DataView.getFloat64 [0; 0; 0; 0; 0; 0; 0xF0; 0xFF] = S754_infinity true /\
  DataView.setInt32 (-2) = [0xFE; 0xFF; 0xFF; 0xFF] /\
  DataView.getInt32 [0xFE; 0xFF; 0xFF; 0xFF] = -2.
Proof. repeat split. Qed.

(** ** Arithmetic of the JavaScript operators *)

Lemma ToInt32_range x : - 2 ^ 31 <= JS.ToInt32 x < 2 ^ 31.
Proof.
  unfold JS.ToInt32; cbv zeta.
  pose proof (Z.mod_pos_bound x (2 ^ 32) eq_refl).
  destruct (Z.leb_spec (2 ^ 31) (x mod 2 ^ 32)); lia.
Qed.

Lemma ToInt32_small x : - 2 ^ 31 <= x < 2 ^ 31 -> JS.ToInt32 x = x.
Proof.
  intros H. unfold JS.ToInt32; cbv zeta.
  destruct (Z.leb_spec (2 ^ 31) (x mod 2 ^ 32));
    Z.to_euclidean_division_equations; lia.
Qed.

Lemma ToInt32_mod x k :
  0 <= k <= 32 -> JS.ToInt32 x mod 2 ^ k = x mod 2 ^ k.
Proof.
  intros Hk. unfold JS.ToInt32; cbv zeta.
  assert (E : 2 ^ 32 = 2 ^ (32 - k) * 2 ^ k)
    by (rewrite <- Z.pow_add_r by lia; f_equal; lia).
  assert (M : (x mod 2 ^ 32) mod 2 ^ k = x mod 2 ^ k).
  { rewrite E, Z.mul_comm, Z.rem_mul_r
      by (apply Z.pow_nonzero || apply Z.pow_pos_nonneg; lia).
    rewrite Z.mul_comm, Z.mod_add by (apply Z.pow_nonzero; lia).
    apply Z.mod_mod, Z.pow_nonzero; lia. }
  destruct (2 ^ 31 <=? x mod 2 ^ 32); [| exact M].
  rewrite <- M, E.
  replace (x mod (2 ^ (32 - k) * 2 ^ k) - 2 ^ (32 - k) * 2 ^ k)
    with (x mod (2 ^ (32 - k) * 2 ^ k) + (- 2 ^ (32 - k)) * 2 ^ k) by ring.
  apply Z.mod_add, Z.pow_nonzero; lia.
Qed.

Lemma band_255 x : JS.band x 0xFF = x mod 256.
Proof.
  unfold JS.band. rewrite (ToInt32_small 255) by lia.
  change 255 with (Z.ones 8). rewrite Z.land_ones by lia.
  apply (ToInt32_mod x 8); lia.
Qed.

(** The byte at bit [k] of a number, as [(value >> k) & 0xFF] finds it. *)
Lemma band_sar_255 x k :
  0 <= k <= 24 -> JS.band (JS.sar x k) 0xFF = (x / 2 ^ k) mod 256.
Proof.
  intros Hk. rewrite band_255. unfold JS.sar, JS.ToUint32.
  rewrite (Z.mod_small k (2 ^ 32)) by lia.
  rewrite (Z.mod_small k 32) by lia.
  rewrite Z.shiftr_div_pow2 by lia.
  change 256 with (2 ^ 8).
  rewrite <- !Z.land_ones, <- !Z.shiftr_div_pow2 by lia.
  apply Z.bits_inj'; intros n Hn.
  rewrite !Z.land_spec, !Z.shiftr_spec, !Z.testbit_ones_nonneg by lia.
  destruct (Z.ltb_spec n 8); rewrite ?andb_false_r; [| reflexivity].
  rewrite !andb_true_r.
  rewrite <- (Z.mod_pow2_bits_low (JS.ToInt32 x) 32 (n + k)) by lia.
  rewrite <- (Z.mod_pow2_bits_low x 32 (n + k)) by lia.
  now rewrite (ToInt32_mod x 32) by lia.
Qed.

Lemma land_low_high a b k :
  0 <= k -> 0 <= a < 2 ^ k -> Z.land a (b * 2 ^ k) = 0.
Proof.
  intros Hk Ha. apply Z.bits_inj'; intros n Hn.
  rewrite Z.land_spec, Z.bits_0.
  destruct (Z.ltb_spec n k).
  - rewrite Z.mul_pow2_bits_low by lia. apply andb_false_r.
  - rewrite <- (Z.mod_small a (2 ^ k)) by lia.
    now rewrite Z.mod_pow2_bits_high by lia.
Qed.

Lemma lor_low_high a b k :
  0 <= k -> 0 <= a < 2 ^ k -> Z.lor a (b * 2 ^ k) = a + b * 2 ^ k.
Proof.
  intros Hk Ha.
  rewrite <- (Z.add_lor_land a (b * 2 ^ k)), (land_low_high a b k) by lia.
  lia.
Qed.

Lemma lor_mod a b k :
  0 <= k -> Z.lor a b mod 2 ^ k = Z.lor (a mod 2 ^ k) (b mod 2 ^ k).
Proof.
  intros Hk. rewrite <- !Z.land_ones by lia. apply Z.land_lor_distr_l.
Qed.

Lemma shl_byte b k :
  is_byte b -> 0 <= k <= 16 -> JS.shl b k = b * 2 ^ k.
Proof.
  intros Hb Hk. unfold JS.shl, JS.ToUint32, is_byte in *.
  rewrite (Z.mod_small k (2 ^ 32)), (Z.mod_small k 32) by lia.
  rewrite (ToInt32_small b) by lia.
  rewrite Z.shiftl_mul_pow2 by lia.
  apply ToInt32_small.
  assert (0 < 2 ^ k <= 2 ^ 16)
    by (split; [apply Z.pow_pos_nonneg | apply Z.pow_le_mono_r]; lia).
  nia.
Qed.

Lemma shl_byte_24 b :
  is_byte b -> JS.shl b 24 mod 2 ^ 32 = b * 2 ^ 24.
Proof.
  intros Hb. unfold JS.shl, JS.ToUint32, is_byte in *.
  rewrite (Z.mod_small 24 (2 ^ 32)), (Z.mod_small 24 32) by lia.
  rewrite (ToInt32_small b) by lia.
  rewrite Z.shiftl_mul_pow2 by lia.
  rewrite (ToInt32_mod _ 32) by lia.
  apply Z.mod_small. lia.
Qed.

(** The value a 16-bit read assembles. *)
Lemma bor_shl_16 b0 b1 :
  is_byte b0 -> is_byte b1 -> JS.bor b0 (JS.shl b1 8) = b0 + 256 * b1.
Proof.
  intros H0 H1. rewrite shl_byte by (assumption || lia).
  unfold JS.bor, is_byte in *. rewrite !ToInt32_small by lia.
  rewrite lor_low_high by lia. lia.
Qed.

(** The value a 32-bit read assembles, after [>>> 0]. *)
Lemma bor_shl_32 b0 b1 b2 b3 :
  is_byte b0 -> is_byte b1 -> is_byte b2 -> is_byte b3 ->
  JS.shr (JS.bor (JS.bor (JS.bor b0 (JS.shl b1 8)) (JS.shl b2 16)) (JS.shl b3 24)) 0
  = b0 + 256 * (b1 + 256 * (b2 + 256 * b3)).
Proof.
  intros H0 H1 H2 H3. rewrite bor_shl_16 by assumption.
  rewrite (shl_byte b2 16) by (assumption || lia).
  pose proof (shl_byte_24 b3 H3) as E3.
  unfold is_byte in *.
  unfold JS.bor at 2. rewrite !ToInt32_small by lia.
  rewrite lor_low_high by lia.
  unfold JS.shr, JS.bor, JS.ToUint32.
  change (0 mod 2 ^ 32 mod 32) with 0. rewrite Z.shiftr_0_r.
  rewrite lor_mod, !(ToInt32_mod _ 32), E3 by lia.
  rewrite (Z.mod_small (b0 + 256 * b1 + b2 * 2 ^ 16)) by lia.
  rewrite lor_low_high by lia. lia.
Qed.

(** ** Arrays *)

Lemma len_app a b : len (a ++ b) = len a + len b.
Proof. unfold len. rewrite length_app. lia. Qed.

Lemma len_nonneg a : 0 <= len a.
Proof. unfold len. lia. Qed.

Lemma len_from xs : len (Uint8Array_from xs) = len xs.
Proof. unfold len, Uint8Array_from. now rewrite length_map. Qed.

Lemma from_app a b :
  Uint8Array_from (a ++ b) = Uint8Array_from a ++ Uint8Array_from b.
Proof. apply map_app. Qed.

Lemma from_bytes bs : Forall is_byte bs -> Uint8Array_from bs = bs.
Proof.
  induction 1 as [| b t Hb _ IH]; [reflexivity |].
  unfold Uint8Array_from in *. cbn [map]. rewrite IH. f_equal.
  apply Z.mod_small. exact Hb.
Qed.

Lemma get_nat d (n : nat) : get d (Z.of_nat n) = nth_error d n.
Proof.
  unfold get, len. rewrite Nat2Z.id.
  destruct (Z.leb_spec 0 (Z.of_nat n)); [| lia].
  destruct (Z.ltb_spec (Z.of_nat n) (Z.of_nat (length d))); simpl; [reflexivity |].
  symmetry. apply nth_error_None. lia.
Qed.

(** An element read past a prefix of known length. *)
Lemma get_app pre d i :
  0 <= i -> get (pre ++ d) (len pre + i) = get d i.
Proof.
  intros Hi. unfold len. rewrite <- (Z2Nat.id i) by lia.
  rewrite <- Nat2Z.inj_add, !get_nat.
  rewrite nth_error_app2 by lia. f_equal. lia.
Qed.

Lemma create_app pre d post :
  DataView.create (pre ++ d ++ post) (len pre) (len d) = Some d.
Proof.
  unfold DataView.create. rewrite !len_app.
  pose proof (len_nonneg pre). pose proof (len_nonneg d).
  pose proof (len_nonneg post).
  destruct (Z.ltb_spec (len pre) 0); [lia |].
  destruct (Z.gtb_spec (len pre) (len pre + (len d + len post))); [lia |].
  destruct (Z.gtb_spec (len pre + len d) (len pre + (len d + len post))); [lia |].
  simpl. unfold len. rewrite !Nat2Z.id.
  rewrite skipn_app, skipn_all, Nat.sub_diag. simpl.
  rewrite firstn_app, firstn_all, Nat.sub_diag. simpl.
  now rewrite app_nil_r.
Qed.

(** ** Little-endian layout *)

Lemma le_bytes_length n v : length (le_bytes n v) = n.
Proof. revert v; induction n; simpl; intros; [| rewrite IHn]; reflexivity. Qed.

Lemma le_bytes_are_bytes n v : Forall is_byte (le_bytes n v).
Proof.
  revert v; induction n; simpl; intros; constructor; auto.
  apply Z.mod_pos_bound. lia.
Qed.

Lemma le_value_le_bytes n v :
  le_value (le_bytes n v) = v mod 2 ^ (8 * Z.of_nat n).
Proof.
  revert v; induction n as [| n IH]; intros v.
  - simpl. now rewrite Z.mod_1_r.
  - cbn [le_bytes le_value]. rewrite IH.
    replace (8 * Z.of_nat (S n)) with (8 + 8 * Z.of_nat n) by lia.
    rewrite Z.pow_add_r by lia. change (2 ^ 8) with 256.
    rewrite Z.rem_mul_r by (try apply Z.pow_pos_nonneg; lia).
    reflexivity.
Qed.

(** ** The bound of the engine *)

Lemma max_arguments_min {E : Engine} : 65536 <= max_arguments.
Proof.
  unfold max_arguments. pose proof (N2Z.is_nonneg extra_arguments). lia.
Qed.

Lemma push_all_fits {E : Engine} xs w :
  len xs <= max_arguments -> push_all xs w = (Return tt, append xs w).
Proof.
  intros H. unfold push_all.
  destruct (Z.gtb_spec (len xs) max_arguments); [lia | reflexivity].
Qed.

Lemma push_all_over {E : Engine} xs w :
  max_arguments < len xs -> push_all xs w = (Throw RangeError, w).
Proof.
  intros H. unfold push_all.
  destruct (Z.gtb_spec (len xs) max_arguments); [reflexivity | lia].
Qed.

Lemma push_all_small {E : Engine} xs w :
  len xs <= 65536 -> push_all xs w = (Return tt, append xs w).
Proof.
  intros H. apply push_all_fits. pose proof max_arguments_min. lia.
Qed.

(** ** What each write appends *)

Lemma append_append xs ys w : append ys (append xs w) = append (xs ++ ys) w.
Proof. unfold append; cbn [buffer packetId]. now rewrite <- app_assoc. Qed.

Lemma append_nil w : append [] w = w.
Proof. unfold append. rewrite app_nil_r. now destruct w. Qed.

Lemma writeUInt8_spec v w :
  writeUInt8 v w = (Return tt, append [v mod 256] w).
Proof. unfold writeUInt8, push. now rewrite band_255. Qed.

Lemma writeUInt16_spec v w :
  writeUInt16 v w = (Return tt, append (le_bytes 2 v) w).
Proof.
  unfold writeUInt16, and_then, push. rewrite !append_append.
  cbn [le_bytes app].
  rewrite band_255, (band_sar_255 v 8) by lia. reflexivity.
Qed.

Lemma writeUInt32_spec v w :
  writeUInt32 v w = (Return tt, append (le_bytes 4 v) w).
Proof.
  unfold writeUInt32, and_then, push. rewrite !append_append.
  cbn [le_bytes app].
  rewrite band_255, (band_sar_255 v 8), (band_sar_255 v 16), (band_sar_255 v 24) by lia.
  rewrite !Z.div_div by lia. reflexivity.
Qed.

Lemma bigint_byte v i :
  0 <= i -> Z.land (Z.shiftr v (i * 8)) 0xFF = (v / 2 ^ (i * 8)) mod 256.
Proof.
  intros Hi. change 255 with (Z.ones 8).
  rewrite Z.land_ones, Z.shiftr_div_pow2 by lia. reflexivity.
Qed.

Lemma writeUInt64_spec v w :
  writeUInt64 v w = (Return tt, append (le_bytes 8 v) w).
Proof.
  unfold writeUInt64, and_then, push, skip; cbn [fold_right].
  rewrite !append_append. cbn [le_bytes app].
  rewrite !bigint_byte by lia.
  rewrite !Z.div_div by lia.
  rewrite Z.div_1_r. reflexivity.
Qed.

Lemma writeBool_spec b w :
  writeBool b w = (Return tt, append [if b then 1 else 0] w).
Proof. reflexivity. Qed.

(** A string that the engine takes is written whole; of a longer one only
    the prefix is written, and the call throws. *)
Lemma writeString_spec {E : Engine} s w :
  len (Text.TextEncoder_encode s) <= max_arguments ->
  writeString s w =
  (Return tt,
   append (le_bytes 2 (len (Text.TextEncoder_encode s)) ++ Text.TextEncoder_encode s) w).
Proof.
  intros H. unfold writeString, and_then. cbv zeta. rewrite writeUInt16_spec.
  rewrite push_all_fits by exact H. now rewrite append_append.
Qed.

Lemma writeString_over {E : Engine} s w :
  max_arguments < len (Text.TextEncoder_encode s) ->
  writeString s w =
  (Throw RangeError, append (le_bytes 2 (len (Text.TextEncoder_encode s))) w).
Proof.
  intros H. unfold writeString, and_then. cbv zeta. rewrite writeUInt16_spec.
  now rewrite push_all_over by exact H.
Qed.

(** A write that fits returns, and has appended its encoding. *)
Lemma write_returns {E : Engine} op w :
  fits op -> write op w = (Return tt, append (encoding op) w).
Proof.
  unfold fits. pose proof max_arguments_min.
  destruct op; cbn [write encoding spread]; intros F;
    rewrite ?writeUInt8_spec, ?writeUInt16_spec, ?writeUInt32_spec,
      ?writeUInt64_spec, ?writeBool_spec, ?writeString_spec by exact F;
    try reflexivity;
    unfold writeInt32, writeInt64, writeFloat32, writeFloat64, writeBytes;
    now apply push_all_fits.
Qed.

(** A write that does not fit throws a [RangeError]; [writeString] has
    then appended its prefix, and [writeBytes] nothing. *)
Lemma write_throws {E : Engine} op w :
  ~ fits op ->
  write op w =
  (Throw RangeError,
   match op with
   | WString s => append (le_bytes 2 (len (Text.TextEncoder_encode s))) w
   | _ => w
   end).
Proof.
  unfold fits.
  destruct op; cbn [write spread]; intros F;
    try (exfalso; apply F; pose proof max_arguments_min;
         unfold len; rewrite ?le_bytes_length; cbn; lia).
  - unfold writeInt32. apply push_all_over. lia.
  - unfold writeInt64. apply push_all_over. lia.
  - unfold writeFloat32. apply push_all_over. lia.
  - unfold writeFloat64. apply push_all_over. lia.
  - apply writeString_over. lia.
  - unfold writeBytes. apply push_all_over. lia.
Qed.

Lemma fits_dec {E : Engine} op : fits op \/ ~ fits op.
Proof. unfold fits. lia. Qed.

(** Whether it returns or throws, a write only appends; what it appends
    when it returns is its encoding. *)
Lemma write_grows {E : Engine} op w :
  exists bs, snd (write op w) = append bs w /\
             (fst (write op w) = Return tt -> bs = encoding op).
Proof.
  destruct (fits_dec op) as [F | F].
  - rewrite write_returns by exact F. now exists (encoding op).
  - rewrite write_throws by exact F. cbn [fst snd].
    destruct op; try (exists []; rewrite append_nil; split; [reflexivity | discriminate]).
    eexists; split; [reflexivity | discriminate].
Qed.

Lemma writes_spec {E : Engine} ops w :
  Forall fits ops ->
  writes ops w = (Return tt, append (flat_map encoding ops) w).
Proof.
  intros H. revert w. induction H as [| op t F _ IH]; intros w.
  - cbn [writes flat_map]. unfold skip. now rewrite append_nil.
  - cbn [writes flat_map]. unfold and_then. rewrite write_returns by exact F.
    rewrite IH. now rewrite append_append.
Qed.

Lemma writes_grows {E : Engine} ops w :
  exists bs, snd (writes ops w) = append bs w /\
             (fst (writes ops w) = Return tt -> bs = flat_map encoding ops).
Proof.
  revert w; induction ops as [| op ops IH]; intros w.
  - exists []. cbn [writes snd]. unfold skip. rewrite append_nil. now split.
  - cbn [writes flat_map]. unfold and_then.
    destruct (write_grows op w) as (b1 & E1 & R1).
    destruct (write op w) as [[[] | e] w1]; cbn [fst snd] in *; subst w1.
    + destruct (IH (append b1 w)) as (b2 & E2 & R2).
      exists (b1 ++ b2). rewrite E2, append_append. split; [reflexivity |].
      intros R. now rewrite R1, R2.
    + exists b1. split; [reflexivity | discriminate].
Qed.

(** The only exception of a write is the [RangeError] of its spread. *)
Lemma write_exception {E : Engine} op w e :
  fst (write op w) = Throw e -> e = RangeError.
Proof.
  destruct (fits_dec op) as [F | F].
  - rewrite write_returns by exact F. discriminate.
  - rewrite write_throws by exact F. cbn [fst]. congruence.
Qed.

Lemma writes_exception {E : Engine} ops w e :
  fst (writes ops w) = Throw e -> e = RangeError.
Proof.
  revert w; induction ops as [| op ops IH]; intros w; cbn [writes].
  - discriminate.
  - unfold and_then. pose proof (write_exception op w) as T.
    destruct (write op w) as [[[] | e'] w1]; cbn [fst] in *.
    + apply IH.
    + intros [= <-]. now apply T.
Qed.

Lemma new_PacketWriter_spec id :
  new_PacketWriter id = mkWriter (le_bytes 2 id) id.
Proof. unfold new_PacketWriter. now rewrite writeUInt16_spec. Qed.

(** ** The framed and the unframed output *)

Lemma getBytes_spec w :
  fst (getBytes w) =
  le_bytes 2 (len (buffer w)) ++ Uint8Array_from (buffer w).
Proof.
  unfold getBytes; cbn [fst].
  rewrite band_255, (band_sar_255 _ 8) by lia.
  change (repeat 0 (2 + length (buffer w)))
    with (0 :: 0 :: repeat 0 (length (buffer w))).
  cbn [Uint8Array_store]. unfold Uint8Array_set.
  cbn [firstn skipn Nat.add le_bytes app].
  rewrite !Z.mod_mod by lia.
  rewrite skipn_all2 by (rewrite repeat_length; lia).
  now rewrite app_nil_r.
Qed.

Lemma getData_spec w : fst (getData w) = Uint8Array_from (buffer w).
Proof. reflexivity. Qed.

(** ** Framing *)

Lemma getBytes_length w :
  len (fst (getBytes w)) = 2 + len (fst (getData w)).
Proof.
  rewrite getBytes_spec, getData_spec, len_app, len_from. reflexivity.
Qed.

(** The header is the length of the buffer modulo 65536. *)
Lemma getBytes_header w :
  le_value (firstn 2 (fst (getBytes w))) = len (fst (getData w)) mod 65536.
Proof.
  rewrite getBytes_spec, getData_spec, len_from.
  change (firstn 2 (le_bytes 2 (len (buffer w)) ++ Uint8Array_from (buffer w)))
    with (le_bytes 2 (len (buffer w))).
  apply (le_value_le_bytes 2).
Qed.

(** C4, as the code has it: the framed output is two bytes longer than the
    unframed output; its first two bytes, read as a little-endian unsigned
    16-bit integer, are the unframed length modulo 65536, hence exactly the
    unframed length whenever that length is at most 65535. *)
Theorem frame_header (w : PacketWriter) :
  len (fst (getBytes w)) = 2 + len (fst (getData w)) /\
  le_value (firstn 2 (fst (getBytes w))) = len (fst (getData w)) mod 65536 /\
  (len (fst (getData w)) <= 65535 ->
   le_value (firstn 2 (fst (getBytes w))) = len (fst (getData w))).
Proof.
  split; [apply getBytes_length | split; [apply getBytes_header |]].
  intros H. rewrite getBytes_header. apply Z.mod_small.
  pose proof (len_nonneg (fst (getData w))). lia.
Qed.

Lemma frame_header_witness :
  let w := snd (writeString (E := engine_131072) (Text.of_ascii "Hello")
                  (new_PacketWriter 10001)) in
  len (fst (getData w)) <= 65535 /\
  le_value (firstn 2 (fst (getBytes w))) = len (fst (getData w)).
Proof.
  intros w. assert (H : len (fst (getData w)) <= 65535) by (vm_compute; discriminate).
  split; [exact H |].
  exact (proj2 (proj2 (frame_header w)) H).
Defined.

(** A writer holding 65536 bytes: the header reads 0, not 65536. *)
Lemma frame_header_wraps :
  let w := snd (writeBytes (E := engine_131072) (repeat 0 (Z.to_nat 65534))
                  (new_PacketWriter 0)) in
  ~ (len (fst (getBytes w)) = 2 + len (fst (getData w)) /\
     le_value (firstn 2 (fst (getBytes w))) = len (fst (getData w))).
Proof.
  intros w [_ H]. revert H.
  rewrite getBytes_header, getData_spec, len_from.
  replace (len (buffer w)) with 65536; [discriminate |].
  unfold w, writeBytes.
  rewrite push_all_small by (unfold len; rewrite repeat_length; lia).
  unfold append, len; cbn [snd buffer].
  rewrite new_PacketWriter_spec; cbn [buffer].
  rewrite length_app, repeat_length.
  cbn [le_bytes length]. rewrite Nat2Z.inj_add, Z2Nat.id by lia. reflexivity.
Qed.

(** ** The concrete scenario *)

(** C5: the three writes of packet 10001, "Hello", 12345 and [true], return
    on every engine, and the packet is the fourteen bytes
    11 27 05 00 48 65 6C 6C 6F 39 30 00 00 01, framed with 0E 00 in front;
    reading them back in the same order gives 10001, "Hello", 12345, [true]
    and a complete reader. *)
Theorem scenario_bytes {E : Engine} :
  fst scenario = Return tt /\
  fst (getData (snd scenario)) =
    [0x11; 0x27; 0x05; 0x00; 0x48; 0x65; 0x6C; 0x6C; 0x6F; 0x39; 0x30; 0x00; 0x00; 0x01] /\
  fst (getBytes (snd scenario)) = [0x0E; 0x00] ++ fst (getData (snd scenario)) /\
  result_of
    (id <- readUInt16 ;; s <- readString ;; n <- readUInt32 ;;
     b <- readBool ;; c <- isComplete ;; ret (id, s, n, b, c))
    (new_PacketReader (fst (getData (snd scenario))))
  = Return (10001, Text.of_ascii "Hello", 12345, true, true).
Proof.
  unfold scenario, and_then.
  rewrite writeString_spec
    by (apply Z.le_trans with 65536; [vm_compute; discriminate | apply max_arguments_min]).
  rewrite writeUInt32_spec, writeBool_spec.
  repeat split; vm_compute; reflexivity.
Qed.

(** ** The packet identifier *)

Lemma readUInt16_bytes b0 b1 post :
  is_byte b0 -> is_byte b1 ->
  readUInt16 (new_PacketReader (b0 :: b1 :: post)) =
  (Return (b0 + 256 * b1), mkReader (b0 :: b1 :: post) 2).
Proof.
  intros H0 H1. unfold readUInt16, bind, this, new_PacketReader.
  cbn [data offset].
  destruct (Z.gtb_spec (0 + 2) (len (b0 :: b1 :: post))) as [H | H].
  { unfold len in H; cbn [length] in H; lia. }
  change (get (b0 :: b1 :: post) 0) with (Some b0).
  replace (get (b0 :: b1 :: post) (0 + 1)) with (Some b1).
  2:{ change (0 + 1) with (Z.of_nat 1). now rewrite get_nat. }
  cbn [JS.num]. rewrite bor_shl_16 by assumption. reflexivity.
Qed.

(** C6: the constructor leaves exactly the two little-endian bytes of the
    identifier in the buffer; they stay the first two bytes whatever is
    written afterwards, whether these writes return or one of them throws;
    a reader of the unframed output reads them back as the identifier
    modulo 65536; and [getPacketId] returns the identifier given to the
    constructor. *)
Theorem packet_id_first {E : Engine} (id : Z) (ops : list write_op) :
  let w := snd (writes ops (new_PacketWriter id)) in
  buffer (new_PacketWriter id) = [id mod 256; (id / 256) mod 256] /\
  firstn 2 (buffer w) = [id mod 256; (id / 256) mod 256] /\
  firstn 2 (fst (getData w)) = [id mod 256; (id / 256) mod 256] /\
  result_of readUInt16 (new_PacketReader (fst (getData w))) = Return (id mod 65536) /\
  fst (getPacketId w) = id.
Proof.
  intros w. subst w.
  destruct (writes_grows ops (new_PacketWriter id)) as (bs & Hw & _).
  rewrite Hw, new_PacketWriter_spec, getData_spec.
  unfold append; cbn [buffer packetId getPacketId fst].
  assert (B0 : is_byte (id mod 256)) by (apply Z.mod_pos_bound; lia).
  assert (B1 : is_byte ((id / 256) mod 256)) by (apply Z.mod_pos_bound; lia).
  rewrite from_app, (from_bytes (le_bytes 2 id)) by apply le_bytes_are_bytes.
  repeat split.
  unfold result_of. cbn [le_bytes app].
  rewrite readUInt16_bytes by assumption. cbn [fst].
  f_equal. change 65536 with (256 * 256).
  rewrite Z.rem_mul_r by lia. reflexivity.
Qed.

(** ** Queries of the writer *)

(** C8: [getBytes], [getData] and [getPacketId] leave the buffer and the
    identifier as they were, so after any sequence of such calls each of
    them returns what it returned before. *)
Theorem queries_pure (qs : list query) (w : PacketWriter) :
  snd (getBytes w) = w /\ snd (getData w) = w /\ snd (getPacketId w) = w /\
  ask_all qs w = w /\
  forall q, fst (ask q (ask_all qs w)) = fst (ask q w).
Proof.
  assert (A : ask_all qs w = w).
  { unfold ask_all. induction qs as [| q qs IH]; [reflexivity |].
    cbn [fold_left]. destruct q; exact IH. }
  repeat split; try assumption.
  intros q. now rewrite A.
Qed.

(** ** The cursor *)

(** C7: [setOffset v] with [v] outside [0 .. data.length] throws the
    invalid-offset error and leaves the reader as it was; with [v] inside,
    it returns and the offset is [v]. *)
Theorem setOffset_spec (r : PacketReader) (v : Z) :
  ((v < 0 \/ len (data r) < v) ->
   setOffset v r = (Throw (Error "PacketReader: Invalid offset"), r)) /\
  (0 <= v <= len (data r) ->
   setOffset v r = (Return tt, mkReader (data r) v)).
Proof.
  unfold setOffset, bind, this, throw, set_offset.
  destruct (Z.ltb_spec v 0); destruct (Z.gtb_spec v (len (data r)));
    cbn [orb]; split; intros; try lia; reflexivity.
Qed.

Lemma setOffset_spec_witness :
  let r := mkReader [1; 2; 3] 1 in
  setOffset 4 r = (Throw (Error "PacketReader: Invalid offset"), r) /\
  setOffset (-1) r = (Throw (Error "PacketReader: Invalid offset"), r) /\
  setOffset 3 r = (Return tt, mkReader [1; 2; 3] 3).
Proof.
  intros r. split; [| split].
  - apply (proj1 (setOffset_spec r 4)). right. vm_compute. reflexivity.
  - apply (proj1 (setOffset_spec r (-1))). left. lia.
  - apply (proj2 (setOffset_spec r 3)). vm_compute. split; discriminate.
Defined.

(** ** Failing reads *)

(** A fixed-width read, [readBool] or [readBytes] that throws has not
    touched the reader. *)
Lemma readUInt8_throws r e :
  result_of readUInt8 r = Throw e -> state_after readUInt8 r = r.
Proof.
  unfold result_of, state_after, readUInt8, bind, this, throw.
  destruct (offset r + 1 >? len (data r)); cbn; [reflexivity | discriminate].
Qed.

Lemma readUInt16_throws r e :
  result_of readUInt16 r = Throw e -> state_after readUInt16 r = r.
Proof.
  unfold result_of, state_after, readUInt16, bind, this, throw.
  destruct (offset r + 2 >? len (data r)); cbn; [reflexivity | discriminate].
Qed.

Lemma readUInt32_throws r e :
  result_of readUInt32 r = Throw e -> state_after readUInt32 r = r.
Proof.
  unfold result_of, state_after, readUInt32, bind, this, throw.
  destruct (offset r + 4 >? len (data r)); cbn; [reflexivity | discriminate].
Qed.

Lemma readUInt64_throws r e :
  result_of readUInt64 r = Throw e -> state_after readUInt64 r = r.
Proof.
  unfold result_of, state_after, readUInt64, bind, this, throw.
  destruct (offset r + 8 >? len (data r)); cbn [fst snd]; [reflexivity |].
  destruct (readUInt64_loop r _ 0); cbn; [discriminate | reflexivity].
Qed.

Ltac view_throws w :=
  unfold result_of, state_after, view, bind, this, throw, ret, set_offset;
  cbv beta;
  match goal with
  | |- context [offset ?r + w >? len (data ?r)] =>
      destruct (offset r + w >? len (data r)); cbn [fst snd]; [reflexivity |];
      destruct (DataView.create (data r) (offset r) w); cbn;
      [discriminate | reflexivity]
  end.

Lemma readInt32_throws r e :
  result_of readInt32 r = Throw e -> state_after readInt32 r = r.
Proof. unfold readInt32. view_throws 4. Qed.

Lemma readInt64_throws r e :
  result_of readInt64 r = Throw e -> state_after readInt64 r = r.
Proof. unfold readInt64. view_throws 8. Qed.

Lemma readFloat32_throws r e :
  result_of readFloat32 r = Throw e -> state_after readFloat32 r = r.
Proof. unfold readFloat32. view_throws 4. Qed.

Lemma readFloat64_throws r e :
  result_of readFloat64 r = Throw e -> state_after readFloat64 r = r.
Proof. unfold readFloat64. view_throws 8. Qed.

Lemma readBool_throws r e :
  result_of readBool r = Throw e -> state_after readBool r = r.
Proof.
  unfold result_of, state_after, readBool, readUInt8, bind, this, throw.
  destruct (offset r + 1 >? len (data r)); cbn; [reflexivity | discriminate].
Qed.

Lemma readBytes_throws n r e :
  result_of (readBytes n) r = Throw e -> state_after (readBytes n) r = r.
Proof.
  unfold result_of, state_after, readBytes, bind, this, throw.
  destruct (offset r + n >? len (data r)); cbn; [reflexivity | discriminate].
Qed.

(** [readString] is the exception: when the length prefix is there but
    the bytes it announces are not, the two bytes of the prefix stay
    consumed. *)
Lemma readString_throws r e :
  result_of readString r = Throw e ->
  state_after readString r = r \/
  (e = out_of_data "string" /\
   state_after readString r = mkReader (data r) (offset r + 2)).
Proof.
  unfold result_of, state_after, readString, readUInt16, bind, this, throw.
  destruct (offset r + 2 >? len (data r)); cbn [fst snd]; [now left |].
  cbn [set_offset ret data offset].
  match goal with |- context [?a >? ?b] => destruct (a >? b) end; cbn.
  - intros [= <-]. right. split; reflexivity.
  - discriminate.
Qed.

(** C2, at a three-byte reader whose prefix announces five bytes:
    [readString] throws the out-of-data error and leaves the offset at 2,
    not at 0. *)
Theorem readString_consumes_prefix :
  let r := new_PacketReader [0x05; 0x00; 0x41] in
  result_of readString r = Throw (out_of_data "string") /\
  offset r = 0 /\
  offset (state_after readString r) = 2.
Proof.
  intros r. split; [| split].
  - vm_compute. reflexivity.
  - reflexivity.
  - vm_compute. reflexivity.
Qed.

(** On a reader without data every read of a fixed width reports its own
    type. *)
Example errors_name_the_type :
  let r := new_PacketReader [] in
  result_of readUInt8 r = Throw (out_of_data "UInt8") /\
  result_of readUInt16 r = Throw (out_of_data "UInt16") /\
  result_of readUInt32 r = Throw (out_of_data "UInt32") /\
  result_of readUInt64 r = Throw (out_of_data "UInt64") /\
  result_of readInt32 r = Throw (out_of_data "Int32") /\
  result_of readInt64 r = Throw (out_of_data "Int64") /\
  result_of readFloat32 r = Throw (out_of_data "Float32") /\
  result_of readFloat64 r = Throw (out_of_data "Float64") /\
  result_of (readBytes 1) r = Throw (out_of_data "bytes").
Proof. repeat split. Qed.

(** C9, at an empty reader: the error of a failing [readBool] names
    UInt8, and the error of a [readString] that fails on its length prefix
    names UInt16. *)
Theorem readBool_error_names_UInt8 :
  result_of readBool (new_PacketReader []) =
    Throw (Error "PacketReader: Not enough data to read UInt8") /\
  result_of readString (new_PacketReader [0x05]) =
    Throw (Error "PacketReader: Not enough data to read UInt16").
Proof. split; reflexivity. Qed.

(** C3, at a two-byte reader: [readBytes(-1)] returns and leaves the
    offset at -1, outside [0 .. data.length]. *)
Theorem readBytes_negative_length :
  let r := new_PacketReader [0x01; 0x02] in
  cursor_ok r /\
  readBytes (-1) r = (Return [0x01], mkReader [0x01; 0x02] (-1)) /\
  ~ cursor_ok (state_after (readBytes (-1)) r).
Proof.
  intros r. split; [| split].
  - unfold cursor_ok, len; cbn. lia.
  - vm_compute. reflexivity.
  - unfold cursor_ok; cbn. lia.
Qed.

(** ** UTF-8 *)

Module TextFacts.
Import Text.

Lemma land_ones_small x k : 0 <= k -> Z.land x (2 ^ k - 1) = x mod 2 ^ k.
Proof.
  intros Hk. rewrite <- Z.land_ones by lia. f_equal.
  rewrite Z.ones_equiv. lia.
Qed.

Lemma land_3F x : Z.land x 0x3F = x mod 64.
Proof. apply (land_ones_small x 6). lia. Qed.
Lemma land_1F x : Z.land x 0x1F = x mod 32.
Proof. apply (land_ones_small x 5). lia. Qed.
Lemma land_0F x : Z.land x 0xF = x mod 16.
Proof. apply (land_ones_small x 4). lia. Qed.
Lemma land_07 x : Z.land x 0x7 = x mod 8.
Proof. apply (land_ones_small x 3). lia. Qed.
Lemma land_3FF x : Z.land x 0x3FF = x mod 1024.
Proof. apply (land_ones_small x 10). lia. Qed.

Lemma lor_80 y : 0 <= y < 64 -> Z.lor 0x80 y = 128 + y.
Proof.
  intros Hy. rewrite Z.lor_comm.
  change (Z.lor y 128) with (Z.lor y (1 * 2 ^ 7)).
  rewrite (lor_low_high y 1 7) by lia. lia.
Qed.

Lemma lor_shiftl_6 x y : 0 <= y < 64 -> Z.lor (Z.shiftl x 6) y = 64 * x + y.
Proof.
  intros Hy. rewrite Z.shiftl_mul_pow2, Z.lor_comm by lia.
  rewrite (lor_low_high y x 6) by lia. lia.
Qed.

(** The encoder, in arithmetic. *)
Lemma utf8_encode_cp_spec c :
  utf8_encode_cp c =
  if c <=? 0x7F then [c]
  else if c <=? 0x7FF then [c / 64 + 192; 128 + c mod 64]
  else if c <=? 0xFFFF then
    [c / 4096 + 224; 128 + (c / 64) mod 64; 128 + c mod 64]
  else
    [c / 262144 + 240; 128 + (c / 4096) mod 64; 128 + (c / 64) mod 64;
     128 + c mod 64].
Proof.
  assert (M : forall x, 0 <= x mod 64 < 64) by (intros; apply Z.mod_pos_bound; lia).
  unfold utf8_encode_cp.
  destruct (c <=? 0x7F); [reflexivity |].
  destruct (c <=? 0x7FF); [| destruct (c <=? 0xFFFF)];
    cbn [utf8_tail Z.of_nat Pos.of_succ_nat Pos.succ Z.mul Pos.mul Pos.add];
    rewrite ?Z.shiftr_0_r, ?Z.shiftr_div_pow2, ?land_3F by lia;
    rewrite !lor_80 by apply M; reflexivity.
Qed.

Lemma utf8_encode_cp_bytes c : scalar c -> Forall is_byte (utf8_encode_cp c).
Proof.
  intros Hc. rewrite utf8_encode_cp_spec. unfold scalar, is_byte in *.
  destruct (Z.leb_spec c 0x7F); [repeat constructor; lia |].
  destruct (Z.leb_spec c 0x7FF);
    [| destruct (Z.leb_spec c 0xFFFF)];
    repeat constructor;
    try (Z.to_euclidean_division_equations; lia).
Qed.

Lemma utf8_encode_bytes cs : Forall scalar cs -> Forall is_byte (utf8_encode cs).
Proof.
  induction 1 as [| c t Hc _ IH]; [constructor |].
  unfold utf8_encode in *. cbn [flat_map].
  apply Forall_app. split; [now apply utf8_encode_cp_bytes | exact IH].
Qed.

(** The decoder, step by step. *)
Lemma utf8_start_1 b :
  b <= 0x7F -> utf8_start b = (utf8_init, [b]).
Proof.
  intros H. unfold utf8_start.
  destruct (Z.leb_spec b 0x7F); [reflexivity | lia].
Qed.

Lemma utf8_start_2 b :
  0xC2 <= b <= 0xDF -> utf8_start b = (mk_utf8 (b mod 32) 0 1 0x80 0xBF, []).
Proof.
  intros H. unfold utf8_start. rewrite land_1F.
  destruct (Z.leb_spec b 0x7F); [lia |].
  destruct (Z.leb_spec 0xC2 b); [| lia].
  destruct (Z.leb_spec b 0xDF); [reflexivity | lia].
Qed.

Lemma utf8_start_3 b :
  0xE0 <= b <= 0xEF ->
  utf8_start b =
  (mk_utf8 (b mod 16) 0 2 (if b =? 0xE0 then 0xA0 else 0x80)
     (if b =? 0xED then 0x9F else 0xBF), []).
Proof.
  intros H. unfold utf8_start. rewrite land_0F.
  destruct (Z.leb_spec b 0x7F); [lia |].
  destruct (Z.leb_spec 0xC2 b); [| lia].
  destruct (Z.leb_spec b 0xDF); [lia |].
  destruct (Z.leb_spec 0xE0 b); [| lia].
  destruct (Z.leb_spec b 0xEF); [reflexivity | lia].
Qed.

Lemma utf8_start_4 b :
  0xF0 <= b <= 0xF4 ->
  utf8_start b =
  (mk_utf8 (b mod 8) 0 3 (if b =? 0xF0 then 0x90 else 0x80)
     (if b =? 0xF4 then 0x8F else 0xBF), []).
Proof.
  intros H. unfold utf8_start. rewrite land_07.
  destruct (Z.leb_spec b 0x7F); [lia |].
  destruct (Z.leb_spec 0xC2 b); [| lia].
  destruct (Z.leb_spec b 0xDF); [lia |].
  destruct (Z.leb_spec 0xE0 b); [| lia].
  destruct (Z.leb_spec b 0xEF); [lia |].
  destruct (Z.leb_spec 0xF0 b); [| lia].
  destruct (Z.leb_spec b 0xF4); [reflexivity | lia].
Qed.

(** A continuation byte inside the boundaries of the state. *)
Lemma utf8_continue cp seen needed lo hi b :
  needed <> 0 -> lo <= b <= hi ->
  utf8_handler (mk_utf8 cp seen needed lo hi) b =
  if seen + 1 =? needed then (utf8_init, [64 * cp + b mod 64])
  else (mk_utf8 (64 * cp + b mod 64) (seen + 1) needed 0x80 0xBF, []).
Proof.
  intros Hn Hb. unfold utf8_handler; cbn [bytes_needed lower_boundary
    upper_boundary code_point bytes_seen].
  destruct (Z.eqb_spec needed 0); [contradiction |].
  destruct (Z.leb_spec lo b); [| lia].
  destruct (Z.leb_spec b hi); [| lia].
  cbn [andb negb]. rewrite land_3F.
  rewrite lor_shiftl_6 by (apply Z.mod_pos_bound; lia).
  reflexivity.
Qed.


Lemma utf8_continue_last cp seen needed lo hi b :
  needed <> 0 -> lo <= b <= hi -> seen + 1 = needed ->
  utf8_handler (mk_utf8 cp seen needed lo hi) b =
  (utf8_init, [64 * cp + b mod 64]).
Proof.
  intros Hn Hb Hs. rewrite utf8_continue by assumption.
  destruct (Z.eqb_spec (seen + 1) needed); [reflexivity | contradiction].
Qed.

Lemma utf8_continue_more cp seen needed lo hi b :
  needed <> 0 -> lo <= b <= hi -> seen + 1 <> needed ->
  utf8_handler (mk_utf8 cp seen needed lo hi) b =
  (mk_utf8 (64 * cp + b mod 64) (seen + 1) needed 0x80 0xBF, []).
Proof.
  intros Hn Hb Hs. rewrite utf8_continue by assumption.
  destruct (Z.eqb_spec (seen + 1) needed); [contradiction | reflexivity].
Qed.

Lemma utf8_handler_init b : utf8_handler utf8_init b = utf8_start b.
Proof. reflexivity. Qed.

Ltac euclid := Z.to_euclidean_division_equations; lia.

Ltac bounds :=
  repeat match goal with
  | |- context [?a =? ?b] => destruct (Z.eqb_spec a b)
  end; euclid.

Lemma utf8_run_cp c rest :
  scalar c ->
  utf8_run utf8_init (utf8_encode_cp c ++ rest) = c :: utf8_run utf8_init rest.
Proof.
  intros Hc. rewrite utf8_encode_cp_spec. unfold scalar in Hc.
  destruct (Z.leb_spec c 0x7F);
    [| destruct (Z.leb_spec c 0x7FF); [| destruct (Z.leb_spec c 0xFFFF)]];
    cbn [app utf8_run]; rewrite utf8_handler_init.
  - rewrite utf8_start_1 by lia. reflexivity.
  - rewrite utf8_start_2 by euclid.
    rewrite utf8_continue_last by (lia || euclid).
    cbn [app]. f_equal. euclid.
  - rewrite utf8_start_3 by euclid.
    rewrite utf8_continue_more by (lia || bounds).
    rewrite utf8_continue_last by (lia || bounds).
    cbn [app]. f_equal. euclid.
  - rewrite utf8_start_4 by euclid.
    rewrite utf8_continue_more by (lia || bounds).
    rewrite utf8_continue_more by (lia || bounds).
    rewrite utf8_continue_last by (lia || bounds).
    cbn [app]. f_equal. euclid.
Qed.


Lemma utf8_decode_encode cs :
  Forall scalar cs -> utf8_decode (utf8_encode cs) = cs.
Proof.
  unfold utf8_decode, utf8_encode.
  induction 1 as [| c t Hc _ IH]; [reflexivity |].
  cbn [flat_map]. rewrite utf8_run_cp by assumption. now rewrite IH.
Qed.

(** ** UTF-16 *)

Lemma list_ind2 (P : list Z -> Prop) :
  P [] -> (forall c, P [c]) ->
  (forall c d t, P t -> P (d :: t) -> P (c :: d :: t)) ->
  forall s, P s.
Proof.
  intros H0 H1 H2 s.
  enough (P s /\ forall c, P (c :: s)) by tauto.
  induction s as [| d t [IHt IHc]]; split; auto.
Qed.

Lemma surrogate_pair c d :
  is_lead c = true -> is_trail d = true ->
  let cp := 0x10000 + Z.shiftl (c - 0xD800) 10 + (d - 0xDC00) in
  0x10000 <= cp <= 0x10FFFF /\ utf16_units cp = [c; d].
Proof.
  unfold is_lead, is_trail. intros Hc Hd. cbv zeta.
  apply andb_prop in Hc, Hd. rewrite !Z.leb_le in Hc, Hd.
  rewrite Z.shiftl_mul_pow2 by lia. split; [lia |].
  unfold utf16_units.
  destruct (Z.ltb_spec (65536 + (c - 55296) * 2 ^ 10 + (d - 56320)) 65536); [lia |].
  rewrite land_3FF, Z.shiftr_div_pow2 by lia.
  f_equal; [| f_equal]; euclid.
Qed.

Lemma to_scalars_cons2 c d t :
  to_scalars (c :: d :: t) =
  if is_lead c then
    if is_trail d
    then 0x10000 + Z.shiftl (c - 0xD800) 10 + (d - 0xDC00) :: to_scalars t
    else 0xFFFD :: to_scalars (d :: t)
  else if is_trail c then 0xFFFD :: to_scalars (d :: t)
  else c :: to_scalars (d :: t).
Proof. reflexivity. Qed.

Lemma isWellFormed_cons2 c d t :
  isWellFormed (c :: d :: t) =
  if is_lead c then is_trail d && isWellFormed t
  else negb (is_trail c) && isWellFormed (d :: t).
Proof. reflexivity. Qed.

Lemma to_scalars_scalar s :
  Forall code_unit s -> Forall scalar (to_scalars s).
Proof.
  assert (R : scalar 0xFFFD) by (unfold scalar; lia).
  assert (U : forall c, code_unit c -> is_lead c = false -> is_trail c = false ->
                        scalar c).
  { unfold code_unit, is_lead, is_trail, scalar. intros c Hc Hl Ht.
    apply andb_false_iff in Hl, Ht. rewrite !Z.leb_gt in Hl, Ht. lia. }
  induction s as [| c | c d t IHt IHd] using list_ind2; intros Hs.
  - constructor.
  - inversion_clear Hs. cbn [to_scalars].
    destruct (is_lead c) eqn:Hl; [now constructor |].
    destruct (is_trail c) eqn:Ht; constructor; auto.
  - inversion Hs as [| ? ? Hc Hs']; subst. inversion Hs' as [| ? ? Hd Ht']; subst.
    rewrite to_scalars_cons2.
    destruct (is_lead c) eqn:Hl.
    + destruct (is_trail d) eqn:Ht.
      * constructor; [| now apply IHt].
        destruct (surrogate_pair c d Hl Ht) as [B _]. unfold scalar. lia.
      * constructor; [exact R | now apply IHd].
    + destruct (is_trail c) eqn:Ht; constructor; auto.
Qed.

Lemma utf16_units_bmp c :
  is_lead c = false -> is_trail c = false -> code_unit c -> utf16_units c = [c].
Proof.
  unfold code_unit, utf16_units. intros _ _ Hc.
  destruct (Z.ltb_spec c 0x10000); [reflexivity | lia].
Qed.

(** A well-formed string is the UTF-16 form of its code points. *)
Lemma utf16_encode_to_scalars s :
  Forall code_unit s -> isWellFormed s = true ->
  utf16_encode (to_scalars s) = s.
Proof.
  unfold utf16_encode.
  induction s as [| c | c d t IHt IHd] using list_ind2; intros Hs Hw.
  - reflexivity.
  - inversion_clear Hs. cbn [to_scalars isWellFormed] in *.
    destruct (is_lead c) eqn:Hl; [discriminate |].
    destruct (is_trail c) eqn:Ht; [discriminate |].
    cbn [flat_map]. now rewrite utf16_units_bmp.
  - inversion Hs as [| ? ? Hc Hs']; subst. inversion Hs' as [| ? ? Hd Ht']; subst.
    rewrite isWellFormed_cons2 in Hw. rewrite to_scalars_cons2.
    destruct (is_lead c) eqn:Hl.
    + apply andb_prop in Hw as [Ht Hw]. rewrite Ht. cbn [flat_map].
      destruct (surrogate_pair c d Hl Ht) as [_ E]. rewrite E.
      now rewrite IHt.
    + destruct (is_trail c) eqn:Ht; [discriminate |].
      cbn [flat_map]. rewrite utf16_units_bmp by assumption.
      now rewrite IHd.
Qed.


(** The first code point of a string is U+FEFF only if its first code unit
    is. *)
Lemma strip_bom_to_scalars s :
  hd 0 s <> 0xFEFF -> strip_bom (to_scalars s) = to_scalars s.
Proof.
  destruct s as [| c t]; [reflexivity |]. cbn [hd]. intros Hc.
  cbn [to_scalars].
  destruct (is_lead c) eqn:Hl.
  - destruct t as [| d t']; [reflexivity |].
    destruct (is_trail d) eqn:Ht; [| reflexivity].
    destruct (surrogate_pair c d Hl Ht) as [B _]. cbv zeta in B.
    unfold strip_bom.
    destruct (Z.eqb_spec (65536 + Z.shiftl (c - 55296) 10 + (d - 56320)) 65279);
      [lia | reflexivity].
  - destruct (is_trail c); [reflexivity |].
    unfold strip_bom. destruct (Z.eqb_spec c 65279); [contradiction | reflexivity].
Qed.

(** The string round trip of the platform codec. *)
Lemma TextDecoder_TextEncoder s :
  Forall code_unit s -> isWellFormed s = true -> hd 0 s <> 0xFEFF ->
  TextDecoder_decode (TextEncoder_encode s) = s.
Proof.
  intros Hs Hw Hb. unfold TextDecoder_decode, TextEncoder_encode.
  rewrite utf8_decode_encode by now apply to_scalars_scalar.
  rewrite strip_bom_to_scalars by assumption.
  now apply utf16_encode_to_scalars.
Qed.


(** ** Decoding a truncated encoding *)

Lemma utf8_encode_cons c t :
  utf8_encode (c :: t) = utf8_encode_cp c ++ utf8_encode t.
Proof. reflexivity. Qed.






End TextFacts.

(** ** Reads that succeed

    The reader stands behind [pre]; the bytes of the value follow. *)

Lemma slice_firstn pre d n :
  0 <= n <= len d ->
  slice (pre ++ d) (len pre) (len pre + n) = firstn (Z.to_nat n) d.
Proof.
  intros Hn. unfold slice, rel_index. rewrite !len_app.
  pose proof (len_nonneg pre).
  destruct (Z.ltb_spec (len pre) 0); [lia |].
  destruct (Z.ltb_spec (len pre + n) 0); [lia |].
  rewrite !Z.min_l by lia.
  replace (len pre + n - len pre) with n by lia.
  unfold len. rewrite Nat2Z.id.
  rewrite skipn_app, skipn_all, Nat.sub_diag. reflexivity.
Qed.

Lemma guard_passes pre d width :
  width <= len d -> (len pre + width >? len (pre ++ d)) = false.
Proof.
  intros H. rewrite len_app.
  destruct (Z.gtb_spec (len pre + width) (len pre + len d)); [lia | reflexivity].
Qed.

Lemma get_at pre d i :
  0 <= i -> get (pre ++ d) (len pre + i) = nth_error d (Z.to_nat i).
Proof.
  intros Hi. rewrite get_app by lia.
  rewrite <- (Z2Nat.id i) at 1 by lia. apply get_nat.
Qed.

Lemma get_at_0 pre d : get (pre ++ d) (len pre) = nth_error d 0.
Proof. rewrite <- (Z.add_0_r (len pre)). now rewrite get_at. Qed.

Ltac start_read :=
  unfold bind, this, throw, ret, set_offset; cbn [data offset];
  rewrite guard_passes by (unfold len; cbn [length]; lia).

Lemma readUInt8_at pre b post :
  readUInt8 (mkReader (pre ++ b :: post) (len pre)) =
  (Return (Some b), mkReader (pre ++ b :: post) (len pre + 1)).
Proof.
  unfold readUInt8. start_read. now rewrite get_at_0.
Qed.

Lemma readUInt16_at pre b0 b1 post :
  is_byte b0 -> is_byte b1 ->
  readUInt16 (mkReader (pre ++ b0 :: b1 :: post) (len pre)) =
  (Return (b0 + 256 * b1), mkReader (pre ++ b0 :: b1 :: post) (len pre + 2)).
Proof.
  intros H0 H1. unfold readUInt16. start_read.
  rewrite get_at_0, get_at by lia. cbn [nth_error Z.to_nat Pos.to_nat Pos.iter_op JS.num].
  now rewrite bor_shl_16.
Qed.

Lemma readUInt32_at pre b0 b1 b2 b3 post :
  is_byte b0 -> is_byte b1 -> is_byte b2 -> is_byte b3 ->
  readUInt32 (mkReader (pre ++ b0 :: b1 :: b2 :: b3 :: post) (len pre)) =
  (Return (le_value [b0; b1; b2; b3]),
   mkReader (pre ++ b0 :: b1 :: b2 :: b3 :: post) (len pre + 4)).
Proof.
  intros H0 H1 H2 H3. unfold readUInt32. start_read.
  rewrite get_at_0, !get_at by lia.
  change (nth_error (b0 :: b1 :: b2 :: b3 :: post) 0) with (Some b0).
  change (nth_error (b0 :: b1 :: b2 :: b3 :: post) (Z.to_nat 1)) with (Some b1).
  change (nth_error (b0 :: b1 :: b2 :: b3 :: post) (Z.to_nat 2)) with (Some b2).
  change (nth_error (b0 :: b1 :: b2 :: b3 :: post) (Z.to_nat 3)) with (Some b3).
  cbn [JS.num le_value]. rewrite bor_shl_32 by assumption.
  repeat f_equal. lia.
Qed.

(** The loop of [readUInt64] over bytes that are there. *)
Lemma readUInt64_loop_at pre bs post :
  Forall is_byte bs -> length bs = 8%nat ->
  readUInt64_loop (mkReader (pre ++ bs ++ post) (len pre)) [0; 1; 2; 3; 4; 5; 6; 7] 0
  = Return (le_value bs).
Proof.
  intros Hb Hl.
  do 8 (destruct bs as [| ? bs]; [discriminate Hl |]).
  destruct bs; [| discriminate Hl].
  repeat match goal with H : Forall _ (_ :: _) |- _ => inversion_clear H end.
  unfold is_byte in *.
  cbn [readUInt64_loop data offset app].
  rewrite !get_at by lia.
  repeat match goal with
  | |- context [Z.to_nat ?k] =>
      let n := eval compute in (Z.to_nat k) in change (Z.to_nat k) with n
  end.
  cbn [nth_error].
  rewrite !Z.shiftl_mul_pow2 by lia.
  rewrite Z.lor_0_l.
  change (0 * 8) with 0; change (1 * 8) with 8; change (2 * 8) with 16;
    change (3 * 8) with 24; change (4 * 8) with 32; change (5 * 8) with 40;
    change (6 * 8) with 48; change (7 * 8) with 56.
  rewrite Z.pow_0_r, Z.mul_1_r.
  rewrite (lor_low_high _ _ 8) by lia. rewrite (lor_low_high _ _ 16) by lia.
  rewrite (lor_low_high _ _ 24) by lia. rewrite (lor_low_high _ _ 32) by lia.
  rewrite (lor_low_high _ _ 40) by lia. rewrite (lor_low_high _ _ 48) by lia.
  rewrite (lor_low_high _ _ 56) by lia.
  cbn [le_value]. f_equal. lia.
Qed.

Lemma readUInt64_at pre bs post :
  Forall is_byte bs -> length bs = 8%nat ->
  readUInt64 (mkReader (pre ++ bs ++ post) (len pre)) =
  (Return (le_value bs), mkReader (pre ++ bs ++ post) (len pre + 8)).
Proof.
  intros Hb Hl. unfold readUInt64. unfold bind at 1. unfold this at 1.
  cbn [data offset].
  rewrite guard_passes by (rewrite len_app; unfold len at 1; rewrite Hl;
                           pose proof (len_nonneg post); lia).
  now rewrite readUInt64_loop_at.
Qed.

(** A read through a [DataView] of [n] bytes. *)
Lemma view_at pre bs post n :
  len bs = n ->
  view n (mkReader (pre ++ bs ++ post) (len pre)) =
  (Return bs, mkReader (pre ++ bs ++ post) (len pre)).
Proof.
  intros <-. unfold view, bind, this, ret; cbn [data offset].
  now rewrite create_app.
Qed.

Ltac view_read Hl :=
  unfold bind at 1; unfold this at 1; cbn [data offset];
  rewrite guard_passes
    by (rewrite len_app, Hl; match goal with |- _ <= _ + len ?p =>
          pose proof (len_nonneg p) end; lia);
  unfold bind at 1; rewrite view_at by exact Hl; reflexivity.

Lemma readInt32_at pre bs post :
  len bs = 4 ->
  readInt32 (mkReader (pre ++ bs ++ post) (len pre)) =
  (Return (DataView.getInt32 bs), mkReader (pre ++ bs ++ post) (len pre + 4)).
Proof. intros Hl. unfold readInt32. view_read Hl. Qed.

Lemma readInt64_at pre bs post :
  len bs = 8 ->
  readInt64 (mkReader (pre ++ bs ++ post) (len pre)) =
  (Return (DataView.getBigInt64 bs), mkReader (pre ++ bs ++ post) (len pre + 8)).
Proof. intros Hl. unfold readInt64. view_read Hl. Qed.

Lemma readFloat32_at pre bs post :
  len bs = 4 ->
  readFloat32 (mkReader (pre ++ bs ++ post) (len pre)) =
  (Return (DataView.getFloat32 bs), mkReader (pre ++ bs ++ post) (len pre + 4)).
Proof. intros Hl. unfold readFloat32. view_read Hl. Qed.

Lemma readFloat64_at pre bs post :
  len bs = 8 ->
  readFloat64 (mkReader (pre ++ bs ++ post) (len pre)) =
  (Return (DataView.getFloat64 bs), mkReader (pre ++ bs ++ post) (len pre + 8)).
Proof. intros Hl. unfold readFloat64. view_read Hl. Qed.

Lemma readBool_at pre b post :
  readBool (mkReader (pre ++ b :: post) (len pre)) =
  (Return (negb (b =? 0)), mkReader (pre ++ b :: post) (len pre + 1)).
Proof.
  unfold readBool. unfold bind at 1. now rewrite readUInt8_at.
Qed.

Lemma readBytes_at pre rest n :
  0 <= n <= len rest ->
  readBytes n (mkReader (pre ++ rest) (len pre)) =
  (Return (firstn (Z.to_nat n) rest), mkReader (pre ++ rest) (len pre + n)).
Proof.
  intros Hn. unfold readBytes.
  unfold bind, this, throw, ret, set_offset; cbn [data offset].
  rewrite guard_passes by lia. now rewrite slice_firstn.
Qed.

(** [readString] behind [pre]: the two bytes of the prefix announce [n]
    bytes, and at least [n] bytes follow. *)
Lemma readString_at pre b0 b1 rest :
  is_byte b0 -> is_byte b1 -> b0 + 256 * b1 <= len rest ->
  readString (mkReader (pre ++ b0 :: b1 :: rest) (len pre)) =
  (Return (Text.TextDecoder_decode (firstn (Z.to_nat (b0 + 256 * b1)) rest)),
   mkReader (pre ++ b0 :: b1 :: rest) (len pre + 2 + (b0 + 256 * b1))).
Proof.
  intros H0 H1 Hn. unfold readString. unfold bind at 1.
  rewrite readUInt16_at by assumption.
  unfold bind, this, throw, ret, set_offset; cbn [data offset].
  change (pre ++ b0 :: b1 :: rest) with (pre ++ [b0; b1] ++ rest).
  rewrite app_assoc.
  replace (len pre + 2) with (len (pre ++ [b0; b1])) by (rewrite len_app; reflexivity).
  rewrite guard_passes by lia.
  unfold is_byte in *. rewrite slice_firstn by lia. reflexivity.
Qed.

(** ** IEEE-754 encodings *)

Module IEEEFacts.
Import IEEE.

Lemma digits2_pos_bounds m :
  2 ^ (Zpos (digits2_pos m) - 1) <= Zpos m < 2 ^ Zpos (digits2_pos m).
Proof.
  induction m as [m IH | m IH |]; cbn [digits2_pos]; [| | cbn; lia].
  - rewrite Pos2Z.inj_succ, Z.pow_succ_r by lia.
    replace (Z.succ (Zpos (digits2_pos m)) - 1)
      with (Z.succ (Zpos (digits2_pos m) - 1)) by lia.
    rewrite Z.pow_succ_r by lia. lia.
  - rewrite Pos2Z.inj_succ, Z.pow_succ_r by lia.
    replace (Z.succ (Zpos (digits2_pos m)) - 1)
      with (Z.succ (Zpos (digits2_pos m) - 1)) by lia.
    rewrite Z.pow_succ_r by lia. lia.
Qed.

Lemma digits2_pos_shift m k :
  Zpos (digits2_pos (Pos.iter xO m k)) = Zpos (digits2_pos m) + Zpos k.
Proof.
  revert m; induction k as [k IH | k IH |]; intros m; cbn [Pos.iter digits2_pos].
  - rewrite Pos2Z.inj_succ, !IH. lia.
  - rewrite !IH. lia.
  - lia.
Qed.

Lemma shr_shift m k :
  iter_pos shr_1 k (Build_shr_record (Zpos (Pos.iter xO m k)) false false)
  = Build_shr_record (Zpos m) false false.
Proof.
  revert m; induction k as [k IH | k IH |]; intros m; cbn [Pos.iter iter_pos shr_1 orb].
  - now rewrite !IH.
  - now rewrite !IH.
  - reflexivity.
Qed.

Section Format.

Variables mw ew : Z.
Hypothesis Hmw : 0 < mw.
Hypothesis Hew : 0 < ew.

Lemma P_pos : 2 <= 2 ^ mw.
Proof. change 2 with (2 ^ 1) at 1. apply Z.pow_le_mono_r; lia. Qed.

Lemma Q_pos : 2 <= 2 ^ ew.
Proof. change 2 with (2 ^ 1) at 1. apply Z.pow_le_mono_r; lia. Qed.

Lemma emax_double : 2 * emax ew = 2 ^ ew.
Proof.
  unfold emax. rewrite <- Z.pow_succ_r by lia. f_equal. lia.
Qed.

Lemma half_P : 2 * 2 ^ (mw - 1) = 2 ^ mw.
Proof. rewrite <- Z.pow_succ_r by lia. f_equal. lia. Qed.

Lemma split_join s M E :
  0 <= M < 2 ^ mw -> 0 <= E < 2 ^ ew ->
  join_bits mw ew s M E mod 2 ^ mw = M /\
  (join_bits mw ew s M E / 2 ^ mw) mod 2 ^ ew = E /\
  (2 ^ ew <=? join_bits mw ew s M E / 2 ^ mw) = s.
Proof using Hmw Hew.
  intros HM HE. unfold join_bits.
  pose proof P_pos. pose proof Q_pos.
  rewrite Z.div_add_l, Z.div_small, Z.add_0_r by lia.
  rewrite Z.add_comm, Z.mod_add, Z.mod_small by lia.
  split; [reflexivity |]. destruct s.
  - rewrite <- (Z.mul_1_l (2 ^ ew)) at 1. rewrite Z.add_comm, Z.mod_add by lia.
    rewrite Z.mod_small by lia. split; [reflexivity | apply Z.leb_le; lia].
  - rewrite Z.add_0_l, Z.mod_small by lia.
    split; [reflexivity | apply Z.leb_gt; lia].
Qed.

Lemma join_bits_bound s M E :
  0 <= M < 2 ^ mw -> 0 <= E < 2 ^ ew ->
  0 <= join_bits mw ew s M E < 2 ^ (1 + ew + mw).
Proof using Hmw Hew.
  intros HM HE. unfold join_bits.
  rewrite !Z.pow_add_r, Z.pow_1_r by lia.
  pose proof P_pos. pose proof Q_pos. destruct s; nia.
Qed.

Lemma of_bits_join s M E :
  0 <= M < 2 ^ mw -> 0 <= E < 2 ^ ew ->
  of_bits mw ew (join_bits mw ew s M E) =
  if E =? 0 then
    match M with
    | Zpos p => S754_finite s p (emin mw ew)
    | _ => S754_zero s
    end
  else if E =? 2 ^ ew - 1 then
    if M =? 0 then S754_infinity s else S754_nan
  else
    match M + 2 ^ mw with
    | Zpos p => S754_finite s p (E + emin mw ew - 1)
    | _ => S754_nan
    end.
Proof using Hmw Hew.
  intros HM HE. unfold of_bits. cbv zeta.
  destruct (split_join s M E HM HE) as (-> & -> & ->). reflexivity.
Qed.

(** What validity says about a finite number. *)
Lemma valid_finite s m e :
  valid mw ew (S754_finite s m e) ->
  e <= emax ew - prec mw /\
  ((2 ^ mw <= Zpos m < 2 ^ (mw + 1) /\ emin mw ew <= e) \/
   (Zpos m < 2 ^ mw /\ e = emin mw ew)).
Proof using Hmw Hew.
  unfold valid, valid_binary, bounded, canonical_mantissa, fexp, SpecFloat.emin.
  intros H. apply andb_prop in H as [H1 H2].
  apply Z.eqb_eq in H1. apply Z.leb_le in H2. split; [exact H2 |].
  pose proof (digits2_pos_bounds m) as [L U].
  unfold emin, prec in *.
  destruct (Z.max_spec (Zpos (digits2_pos m) + e - (mw + 1)) (3 - emax ew - (mw + 1)))
    as [[A B] | [A B]]; rewrite B in H1.
  - right. split; [| lia].
    apply Z.lt_le_trans with (1 := U). apply Z.pow_le_mono_r; lia.
  - left. split; [| lia].
    replace (Zpos (digits2_pos m)) with (mw + 1) in * by lia.
    replace (mw + 1 - 1) with mw in L by lia. lia.
Qed.

Lemma to_bits_bound x :
  valid mw ew x -> 0 <= to_bits mw ew x < 2 ^ (1 + ew + mw).
Proof using Hmw Hew.
  pose proof P_pos. pose proof Q_pos. pose proof half_P.
  pose proof emax_double.
  destruct x as [s | s | | s m e]; intros Hv; cbn [to_bits].
  - apply join_bits_bound; lia.
  - apply join_bits_bound; lia.
  - apply join_bits_bound; lia.
  - destruct (valid_finite s m e Hv) as [He [[Hm Hl] | [Hm ->]]].
    + rewrite Z.pow_add_r, Z.pow_1_r in Hm by lia.
      destruct (Z.leb_spec (2 ^ mw) (Zpos m)); [| lia].
      apply join_bits_bound; [lia |]. unfold emin, prec in *. lia.
    + destruct (Z.leb_spec (2 ^ mw) (Zpos m)); [lia |].
      apply join_bits_bound; lia.
Qed.

(** Decoding the encoding of a valid number gives the number back. *)
Lemma of_bits_to_bits x :
  valid mw ew x -> of_bits mw ew (to_bits mw ew x) = x.
Proof using Hmw Hew.
  pose proof P_pos. pose proof Q_pos. pose proof half_P.
  pose proof emax_double.
  destruct x as [s | s | | s m e]; intros Hv; cbn [to_bits].
  - rewrite of_bits_join by lia. reflexivity.
  - rewrite of_bits_join by lia.
    destruct (Z.eqb_spec (2 ^ ew - 1) 0); [lia |].
    now rewrite Z.eqb_refl.
  - rewrite of_bits_join by lia.
    destruct (Z.eqb_spec (2 ^ ew - 1) 0); [lia |].
    rewrite Z.eqb_refl.
    destruct (Z.eqb_spec (2 ^ (mw - 1)) 0); [lia | reflexivity].
  - destruct (valid_finite s m e Hv) as [He [[Hm Hl] | [Hm ->]]].
    + rewrite Z.pow_add_r, Z.pow_1_r in Hm by lia.
      destruct (Z.leb_spec (2 ^ mw) (Zpos m)); [| lia].
      unfold emin, prec in *.
      rewrite of_bits_join by lia.
      destruct (Z.eqb_spec (e - (3 - emax ew - (mw + 1)) + 1) 0); [lia |].
      destruct (Z.eqb_spec (e - (3 - emax ew - (mw + 1)) + 1) (2 ^ ew - 1)); [lia |].
      replace (Zpos m - 2 ^ mw + 2 ^ mw) with (Zpos m) by lia.
      f_equal. unfold emin, prec. lia.
    + destruct (Z.leb_spec (2 ^ mw) (Zpos m)); [lia |].
      rewrite of_bits_join by lia. reflexivity.
Qed.

End Format.


(** Rounding a number that the format represents exactly. *)
Section Rounding.

Variables prec emax : Z.

Lemma shr_fexp_canonical m e :
  fexp prec emax (Zpos (digits2_pos m) + e) = e ->
  shr_fexp prec emax (Zpos m) e loc_Exact =
  (Build_shr_record (Zpos m) false false, e).
Proof.
  intros H. unfold shr_fexp. cbn [Zdigits2]. rewrite H, Z.sub_diag.
  reflexivity.
Qed.

Lemma binary_round_aux_canonical s m e :
  fexp prec emax (Zpos (digits2_pos m) + e) = e -> e <= emax - prec ->
  binary_round_aux prec emax s (Zpos m) e loc_Exact = S754_finite s m e.
Proof.
  intros H He. unfold binary_round_aux.
  rewrite shr_fexp_canonical by assumption.
  cbn [shr_m loc_of_shr_record round_nearest_even].
  rewrite shr_fexp_canonical by assumption. cbn [shr_m].
  destruct (Z.leb_spec e (emax - prec)); [reflexivity | lia].
Qed.

(** The mantissa is too short for the exponent the format wants: it is
    shifted left. *)
Lemma binary_round_shl s m e :
  let e' := fexp prec emax (Zpos (digits2_pos m) + e) in
  e' < e -> e' <= emax - prec ->
  binary_round prec emax s m e =
  S754_finite s (Pos.iter xO m (Z.to_pos (e - e'))) e'.
Proof.
  intros e' Hlt He. unfold binary_round, shl_align. fold e'.
  destruct (e' - e) as [| d | d] eqn:E; try lia.
  replace (Z.to_pos (e - e')) with d by lia.
  apply binary_round_aux_canonical; [| exact He].
  rewrite digits2_pos_shift.
  replace (Zpos (digits2_pos m) + Zpos d + e') with (Zpos (digits2_pos m) + e) by lia.
  reflexivity.
Qed.

(** The mantissa carries [k] zero bits below a mantissa and exponent of
    the format: they are shifted out without loss. *)
Lemma binary_round_shr s m e k :
  bounded prec emax m e = true ->
  binary_round prec emax s (Pos.iter xO m k) (e - Zpos k) = S754_finite s m e.
Proof.
  intros H. apply andb_prop in H as [H1 H2].
  apply Z.eqb_eq in H1. apply Z.leb_le in H2.
  unfold binary_round, shl_align. rewrite digits2_pos_shift.
  replace (Zpos (digits2_pos m) + Zpos k + (e - Zpos k))
    with (Zpos (digits2_pos m) + e) by lia.
  rewrite H1. replace (e - (e - Zpos k)) with (Zpos k) by lia.
  cbv beta iota.
  unfold binary_round_aux.
  unfold shr_fexp at 1. cbn [Zdigits2]. rewrite digits2_pos_shift.
  replace (Zpos (digits2_pos m) + Zpos k + (e - Zpos k))
    with (Zpos (digits2_pos m) + e) by lia.
  rewrite H1. replace (e - (e - Zpos k)) with (Zpos k) by lia.
  cbn [shr shr_record_of_loc]. rewrite shr_shift.
  cbn [shr_m loc_of_shr_record round_nearest_even].
  replace (e - Zpos k + Zpos k) with e by lia.
  rewrite shr_fexp_canonical by assumption. cbn [shr_m].
  destruct (Z.leb_spec e (emax - prec)); [reflexivity | lia].
Qed.

End Rounding.

(** A binary32 number, taken as a number and rounded to binary32 again, is
    itself. *)
Lemma to_float32_to_float64 f :
  valid32 f -> to_float32 (to_float64 f) = f.
Proof.
  destruct f as [s | s | | s m e]; try reflexivity. intros Hv.
  assert (Hb : bounded 24 128 m e = true) by exact Hv.
  destruct (valid_finite 23 8 eq_refl eq_refl s m e Hv) as [He Hm].
  pose proof (digits2_pos_bounds m) as [L U].
  assert (Hd : Zpos (digits2_pos m) <= 24).
  { destruct (Z.le_gt_cases (Zpos (digits2_pos m)) 24) as [| G]; [assumption |].
    assert (2 ^ 24 <= 2 ^ (Zpos (digits2_pos m) - 1))
      by (apply Z.pow_le_mono_r; lia).
    change (2 ^ (23 + 1)) with (2 ^ 24) in Hm. change (2 ^ 23) with 8388608 in Hm.
    change (2 ^ 24) with 16777216 in *. lia. }
  assert (Hl : emin 23 8 <= e) by (destruct Hm as [[_ ?] | [_ ->]]; lia).
  change (emin 23 8) with (-149) in Hl.
  change (emax 8 - prec 23) with 104 in He.
  unfold to_float64, to_float32, convert.
  change (prec 52) with 53. change (emax 11) with 1024.
  change (prec 23) with 24. change (emax 8) with 128.
  assert (E : fexp 53 1024 (Zpos (digits2_pos m) + e) = Zpos (digits2_pos m) + e - 53).
  { unfold fexp, SpecFloat.emin. lia. }
  rewrite (binary_round_shl 53 1024 s m e) by (rewrite E; lia).
  rewrite E.
  set (k := Z.to_pos (e - (Zpos (digits2_pos m) + e - 53))).
  replace (Zpos (digits2_pos m) + e - 53) with (e - Zpos k) by (unfold k; lia).
  now apply binary_round_shr.
Qed.

(** The image of a binary32 number is a valid number. *)
Lemma to_float64_valid f :
  valid32 f -> valid64 (to_float64 f).
Proof.
  destruct f as [s | s | | s m e]; try reflexivity. intros Hv.
  destruct (valid_finite 23 8 eq_refl eq_refl s m e Hv) as [He Hm].
  pose proof (digits2_pos_bounds m) as [L U].
  assert (Hd : Zpos (digits2_pos m) <= 24).
  { destruct (Z.le_gt_cases (Zpos (digits2_pos m)) 24) as [| G]; [assumption |].
    assert (2 ^ 24 <= 2 ^ (Zpos (digits2_pos m) - 1))
      by (apply Z.pow_le_mono_r; lia).
    change (2 ^ (23 + 1)) with (2 ^ 24) in Hm. change (2 ^ 23) with 8388608 in Hm.
    change (2 ^ 24) with 16777216 in *. lia. }
  assert (Hl : emin 23 8 <= e) by (destruct Hm as [[_ ?] | [_ ->]]; lia).
  change (emin 23 8) with (-149) in Hl.
  change (emax 8 - prec 23) with 104 in He.
  unfold to_float64, convert.
  change (prec 52) with 53. change (emax 11) with 1024.
  assert (E : fexp 53 1024 (Zpos (digits2_pos m) + e) = Zpos (digits2_pos m) + e - 53).
  { unfold fexp, SpecFloat.emin. lia. }
  rewrite (binary_round_shl 53 1024 s m e) by (rewrite E; lia).
  rewrite E. unfold valid64, valid, valid_binary, bounded, canonical_mantissa.
  change (prec 52) with 53. change (emax 11) with 1024.
  rewrite digits2_pos_shift.
  apply andb_true_intro. split; [apply Z.eqb_eq | apply Z.leb_le; lia].
  unfold fexp, SpecFloat.emin. lia.
Qed.

End IEEEFacts.

(** ** [DataView] round trips *)

Lemma getInt32_setInt32 v :
  DataView.getInt32 (DataView.setInt32 v) = JS.ToInt32 v.
Proof.
  unfold DataView.getInt32, DataView.setInt32. cbv zeta.
  rewrite le_value_le_bytes. change (8 * Z.of_nat 4) with 32.
  pose proof (ToInt32_range v).
  destruct (Z.leb_spec (2 ^ 31) (JS.ToInt32 v mod 2 ^ 32));
    Z.to_euclidean_division_equations; lia.
Qed.

Lemma getBigInt64_setBigInt64 v :
  - 2 ^ 63 <= v < 2 ^ 63 ->
  DataView.getBigInt64 (DataView.setBigInt64 v) = v.
Proof.
  intros Hv. unfold DataView.getBigInt64, DataView.setBigInt64. cbv zeta.
  rewrite le_value_le_bytes. change (8 * Z.of_nat 8) with 64.
  destruct (Z.leb_spec (2 ^ 63) (v mod 2 ^ 64));
    Z.to_euclidean_division_equations; lia.
Qed.

Lemma getFloat64_setFloat64 v :
  IEEE.valid64 v -> DataView.getFloat64 (DataView.setFloat64 v) = v.
Proof.
  intros Hv. unfold DataView.getFloat64, DataView.setFloat64.
  rewrite le_value_le_bytes. change (8 * Z.of_nat 8) with (1 + 11 + 52).
  rewrite Z.mod_small by (apply IEEEFacts.to_bits_bound; (reflexivity || assumption)).
  apply IEEEFacts.of_bits_to_bits; (reflexivity || assumption).
Qed.

Lemma getFloat32_setFloat32 f :
  IEEE.valid32 f ->
  DataView.getFloat32 (DataView.setFloat32 (IEEE.to_float64 f)) = IEEE.to_float64 f.
Proof.
  intros Hv. unfold DataView.getFloat32, DataView.setFloat32.
  rewrite IEEEFacts.to_float32_to_float64 by assumption.
  rewrite le_value_le_bytes. change (8 * Z.of_nat 4) with (1 + 8 + 23).
  rewrite Z.mod_small by (apply IEEEFacts.to_bits_bound; (reflexivity || assumption)).
  now rewrite IEEEFacts.of_bits_to_bits by (reflexivity || assumption).
Qed.

(** ** Round trip *)

Lemma in_domain_fits {E : Engine} op : in_domain op -> fits op.
Proof.
  unfold fits. pose proof max_arguments_min.
  destruct op; cbn [in_domain spread]; intros D;
    try (unfold len, DataView.setInt32, DataView.setBigInt64,
           DataView.setFloat32, DataView.setFloat64;
         rewrite ?le_bytes_length; lia).
  - destruct D as (_ & _ & _ & D). lia.
  - apply D.
Qed.

Lemma encoding_bytes {E : Engine} op :
  in_domain op -> Forall is_byte (encoding op).
Proof.
  unfold encoding. destruct op; cbn [in_domain]; intros H;
    try apply le_bytes_are_bytes.
  - constructor; [apply Z.mod_pos_bound; lia | constructor].
  - constructor; [destruct v; unfold is_byte; lia | constructor].
  - apply Forall_app. split; [apply le_bytes_are_bytes |].
    apply TextFacts.utf8_encode_bytes, TextFacts.to_scalars_scalar, H.
  - apply H.
Qed.

Lemma le_bytes_small n v :
  0 <= v < 2 ^ (8 * Z.of_nat n) -> le_value (le_bytes n v) = v.
Proof. intros H. rewrite le_value_le_bytes. now apply Z.mod_small. Qed.

(** Behind any prefix and before any suffix, the matching read returns the
    value written and stops behind its bytes. *)
Lemma write_read {E : Engine} op pre post :
  in_domain op ->
  reads_back op
    (mkReader (pre ++ encoding op ++ post) (len pre))
    (mkReader (pre ++ encoding op ++ post) (len pre + len (encoding op))).
Proof.
  intros H. pose proof (encoding_bytes op H) as Hb.
  unfold encoding in *.
  destruct op; cbn [in_domain reads_back] in *.
  - rewrite Z.mod_small by lia. apply readUInt8_at.
  - cbn [le_bytes app] in *.
    inversion_clear Hb as [| ? ? B0 Hb']. inversion_clear Hb' as [| ? ? B1 _].
    rewrite readUInt16_at by assumption. repeat f_equal.
    rewrite <- (le_bytes_small 2 v) at 3 by (cbn; lia). cbn [le_bytes le_value]. lia.
  - cbn [le_bytes app] in *.
    inversion_clear Hb as [| ? ? B0 Hb']. inversion_clear Hb' as [| ? ? B1 Hb].
    inversion_clear Hb as [| ? ? B2 Hb']. inversion_clear Hb' as [| ? ? B3 _].
    rewrite readUInt32_at by assumption. repeat f_equal.
    rewrite <- (le_bytes_small 4 v) at 5 by (cbn; lia). reflexivity.
  - rewrite readUInt64_at by (assumption || apply le_bytes_length).
    rewrite le_bytes_small by (cbn; lia). reflexivity.
  - rewrite readInt32_at by reflexivity.
    rewrite getInt32_setInt32, ToInt32_small by lia. reflexivity.
  - rewrite readInt64_at by reflexivity.
    rewrite getBigInt64_setBigInt64 by lia. reflexivity.
  - destruct H as (f & Hf & ->).
    rewrite readFloat32_at by reflexivity.
    rewrite getFloat32_setFloat32 by assumption. reflexivity.
  - rewrite readFloat64_at by reflexivity.
    rewrite getFloat64_setFloat64 by assumption. reflexivity.
  - cbn [app]. rewrite readBool_at. destruct v; reflexivity.
  - destruct H as (Hu & Hw & Hbom & Hl).
    set (bs := Text.TextEncoder_encode v) in *.
    pose proof (len_nonneg bs).
    cbn [le_bytes app] in *.
    inversion_clear Hb as [| ? ? B0 Hb']. inversion_clear Hb' as [| ? ? B1 _].
    assert (E' : len bs mod 256 + 256 * ((len bs / 256) mod 256) = len bs)
      by (Z.to_euclidean_division_equations; lia).
    rewrite readString_at by (try assumption; rewrite E', len_app;
                              pose proof (len_nonneg post); lia).
    rewrite E'. unfold len at 1. rewrite Nat2Z.id.
    rewrite firstn_app, firstn_all, Nat.sub_diag. cbn [firstn].
    rewrite app_nil_r. unfold bs.
    rewrite TextFacts.TextDecoder_TextEncoder by assumption.
    do 2 f_equal. unfold len. cbn [length]. lia.
  - rewrite readBytes_at
      by (rewrite len_app; pose proof (len_nonneg v); pose proof (len_nonneg post); lia).
    unfold len at 1. rewrite Nat2Z.id.
    rewrite firstn_app, firstn_all, Nat.sub_diag. cbn [firstn].
    now rewrite app_nil_r.
Qed.

Lemma in_domain_all_fit {E : Engine} ops :
  Forall in_domain ops -> Forall fits ops.
Proof. apply Forall_impl. exact in_domain_fits. Qed.

Lemma encodings_bytes {E : Engine} ops :
  Forall in_domain ops -> Forall is_byte (flat_map encoding ops).
Proof.
  induction 1 as [| op t H _ IH]; [constructor |].
  cbn [flat_map]. apply Forall_app. split; [now apply encoding_bytes | exact IH].
Qed.

Lemma write_read_all {E : Engine} ops :
  Forall in_domain ops ->
  forall pre post,
  reads_all ops
    (mkReader (pre ++ flat_map encoding ops ++ post) (len pre))
    (mkReader (pre ++ flat_map encoding ops ++ post)
       (len pre + len (flat_map encoding ops))).
Proof.
  induction 1 as [| op t H _ IH]; intros pre post; cbn [reads_all flat_map].
  - unfold len at 3. cbn [length]. now rewrite Z.add_0_r.
  - exists (mkReader (pre ++ (encoding op ++ flat_map encoding t) ++ post)
              (len pre + len (encoding op))).
    split.
    + rewrite <- app_assoc. now apply write_read.
    + specialize (IH (pre ++ encoding op) post).
      rewrite len_app in IH. rewrite <- !app_assoc in IH.
      rewrite <- !app_assoc, len_app, Z.add_assoc. exact IH.
Qed.

(** The unframed output after a write that fits, read from where the write
    started. *)
Lemma written_then_read {E : Engine} op w :
  in_domain op ->
  let d := fst (getData (append (encoding op) w)) in
  reads_back op (mkReader d (len (buffer w))) (mkReader d (len d)).
Proof.
  intros H d. subst d.
  rewrite getData_spec. unfold append; cbn [buffer].
  rewrite from_app, (from_bytes (encoding op)) by now apply encoding_bytes.
  rewrite len_app, <- (len_from (buffer w)).
  rewrite <- (app_nil_r (encoding op)) at 1 2.
  now apply write_read.
Qed.

(** C1, as the code has it: for every write, and every value of its domain
    (the integers of the width, every binary64 number for [writeFloat64],
    the binary32 numbers for [writeFloat32], both booleans, the well-formed
    strings without a leading U+FEFF whose UTF-8 form has at most 65535
    bytes, the byte arrays that one call takes as arguments), the write
    returns, and a reader placed where the write started returns the value
    and ends behind the last byte written. *)
Theorem roundtrip {E : Engine} (op : write_op) (w : PacketWriter) :
  in_domain op ->
  fst (write op w) = Return tt /\
  let d := fst (getData (snd (write op w))) in
  reads_back op (mkReader d (len (buffer w))) (mkReader d (len d)).
Proof.
  intros H. rewrite write_returns by now apply in_domain_fits.
  split; [reflexivity |]. cbn [snd]. now apply written_then_read.
Qed.

(** X1: a whole packet whose fields are in their domains: the writes
    return, the fields written after the identifier are read back in the
    same order, and the reader is then complete. *)
Theorem roundtrip_packet {E : Engine} (id : Z) (ops : list write_op) :
  Forall in_domain ops ->
  fst (writes ops (new_PacketWriter id)) = Return tt /\
  let d := fst (getData (snd (writes ops (new_PacketWriter id)))) in
  exists r1 r2,
    readUInt16 (new_PacketReader d) = (Return (id mod 65536), r1) /\
    reads_all ops r1 r2 /\
    isComplete r2 = (Return true, r2).
Proof.
  intros H. rewrite writes_spec by now apply in_domain_all_fit.
  split; [reflexivity |]. cbn [snd]. cbv zeta.
  rewrite new_PacketWriter_spec, getData_spec.
  unfold append; cbn [buffer].
  rewrite from_app, !from_bytes by (apply le_bytes_are_bytes || now apply encodings_bytes).
  set (bs := flat_map encoding ops).
  exists (mkReader (le_bytes 2 id ++ bs) 2),
         (mkReader (le_bytes 2 id ++ bs) (2 + len bs)).
  split; [| split].
  - cbn [le_bytes app].
    rewrite readUInt16_bytes by (apply Z.mod_pos_bound; lia).
    do 2 f_equal. change 65536 with (256 * 256).
    rewrite Z.rem_mul_r by lia. reflexivity.
  - pose proof (write_read_all ops H (le_bytes 2 id) []) as R.
    rewrite app_nil_r in R. exact R.
  - unfold isComplete, bind, this, ret; cbn [data offset].
    rewrite len_app. change (len (le_bytes 2 id)) with 2.
    now rewrite Z.eqb_refl.
Qed.

Lemma repeat_code_units c n :
  Text.code_unit c -> Forall Text.code_unit (repeat c n).
Proof.
  intros Hc. apply Forall_forall. intros x Hx.
  now rewrite (repeat_spec _ _ _ Hx).
Qed.

Lemma hello_in_domain {E : Engine} : in_domain (WString (Text.of_ascii "Hello")).
Proof.
  cbn [in_domain].
  change (Text.of_ascii "Hello") with [72; 101; 108; 108; 111].
  split; [| split; [| split]].
  - repeat (constructor; [unfold Text.code_unit; lia |]). constructor.
  - reflexivity.
  - discriminate.
  - vm_compute. discriminate.
Qed.

Lemma roundtrip_witness :
  let E := engine_131072 in
  let hello := WString (Text.of_ascii "Hello") in
  let half := WFloat32 (S754_finite false 4503599627370496 (-53)) in
  let w := new_PacketWriter 10001 in
  (in_domain hello /\
   fst (write hello w) = Return tt /\
   reads_back hello
     (mkReader (fst (getData (snd (write hello w)))) 2)
     (mkReader (fst (getData (snd (write hello w)))) 9)) /\
  (in_domain half /\
   fst (write half w) = Return tt /\
   reads_back half
     (mkReader (fst (getData (snd (write half w)))) 2)
     (mkReader (fst (getData (snd (write half w)))) 6)).
Proof.
  intros E hello half w.
  assert (H1 : in_domain hello) by apply hello_in_domain.
  assert (H2 : in_domain half).
  { exists (S754_finite false 8388608 (-24)). split; reflexivity. }
  split; split; [exact H1 | exact (roundtrip hello w H1)
                | exact H2 | exact (roundtrip half w H2)].
Defined.

(** Outside that domain the round trip fails.  A well-formed string of
    65536 letters is written with the length prefix 00 00 and read back as
    the empty string; a well-formed string that starts with U+FEFF is read
    back without it. *)
Lemma roundtrip_fails_on_strings :
  let E := engine_131072 in
  let long := repeat 0x61 (Z.to_nat 65536) in
  let bom := [0xFEFF; 0x41] in
  let written s := fst (getData (snd (writeString s (new_PacketWriter 10001)))) in
  let read_back s :=
    result_of (readUInt16 ;;; readString) (new_PacketReader (written s)) in
  (Forall Text.code_unit long /\ Text.isWellFormed long = true /\
   fst (writeString long (new_PacketWriter 10001)) = Return tt /\
   read_back long <> Return long) /\
  (Forall Text.code_unit bom /\ Text.isWellFormed bom = true /\
   fst (writeString bom (new_PacketWriter 10001)) = Return tt /\
   read_back bom <> Return bom).
Proof.
  intros E long bom written read_back. split; (split; [| split; [| split]]).
  - apply repeat_code_units. unfold Text.code_unit. lia.
  - vm_compute. reflexivity.
  - vm_compute. reflexivity.
  - assert (R : read_back long = Return []) by (vm_compute; reflexivity).
    rewrite R. discriminate.
  - repeat (constructor; [unfold Text.code_unit; lia |]). constructor.
  - reflexivity.
  - reflexivity.
  - assert (R : read_back bom = Return [0x41]) by (vm_compute; reflexivity).
    rewrite R. discriminate.
Qed.

(** A lone surrogate does not come back either: the encoder replaces it by
    U+FFFD. *)
Example roundtrip_lone_surrogate :
  let E := engine_131072 in
  result_of (readUInt16 ;;; readString)
    (new_PacketReader
       (fst (getData (snd (writeString [0xD800] (new_PacketWriter 10001))))))
  = Return [0xFFFD].
Proof. reflexivity. Qed.

(** ** Strings of 65536 bytes and more *)






(** ** The invariant of the cursor *)

Lemma get_byte d i :
  Forall is_byte d -> 0 <= i < len d -> exists b, get d i = Some b /\ is_byte b.
Proof.
  intros Hd Hi. unfold get.
  destruct (Z.leb_spec 0 i); [| lia]. destruct (Z.ltb_spec i (len d)); [| lia].
  cbn [andb]. destruct (nth_error d (Z.to_nat i)) as [b |] eqn:E.
  - exists b. split; [reflexivity |].
    rewrite Forall_forall in Hd. eapply Hd, nth_error_In, E.
  - apply nth_error_None in E. unfold len in *. lia.
Qed.

Ltac cursor_fixed w :=
  unfold state_after, view, bind, this, throw, ret, set_offset; cbv beta;
  match goal with
  | |- context [offset ?r + w >? len (data ?r)] =>
      destruct (Z.gtb_spec (offset r + w) (len (data r)));
      cbn [fst snd data offset]; [tauto |];
      try destruct (DataView.create (data r) (offset r) w);
      cbn [fst snd data offset]; split; (reflexivity || tauto || lia)
  end.

(** Every operation keeps [0 <= offset <= data.length] and the data, as
    long as [readBytes] is given a length that is not negative. *)
Lemma cursor_ok_perform op r :
  Forall is_byte (data r) -> nonnegative_length op -> cursor_ok r ->
  cursor_ok (perform op r) /\ data (perform op r) = data r.
Proof.
  intros Hd Hn Hr. unfold cursor_ok in *.
  destruct op; cbn [perform nonnegative_length] in *.
  - unfold readUInt8. cursor_fixed 1.
  - unfold readUInt16. cursor_fixed 2.
  - unfold readUInt32. cursor_fixed 4.
  - unfold readUInt64, state_after, bind, this, throw, ret, set_offset.
    destruct (Z.gtb_spec (offset r + 8) (len (data r)));
      cbn [fst snd data offset]; [tauto |].
    destruct (readUInt64_loop r _ 0); cbn [fst snd data offset];
      split; (reflexivity || tauto || lia).
  - unfold readInt32. cursor_fixed 4.
  - unfold readInt64. cursor_fixed 8.
  - unfold readFloat32. cursor_fixed 4.
  - unfold readFloat64. cursor_fixed 8.
  - unfold readBool, readUInt8. cursor_fixed 1.
  - unfold readString, readUInt16, state_after, bind, this, throw, ret, set_offset.
    destruct (Z.gtb_spec (offset r + 2) (len (data r)));
      cbn [fst snd data offset]; [tauto |].
    destruct (get_byte (data r) (offset r) Hd) as (b0 & -> & B0); [lia |].
    destruct (get_byte (data r) (offset r + 1) Hd) as (b1 & -> & B1); [lia |].
    cbn [JS.num]. rewrite bor_shl_16 by assumption.
    unfold is_byte in *.
    destruct (Z.gtb_spec (offset r + 2 + (b0 + 256 * b1)) (len (data r)));
      cbn [fst snd data offset]; split; (reflexivity || lia).
  - unfold readBytes, state_after, bind, this, throw, ret, set_offset.
    destruct (Z.gtb_spec (offset r + length) (len (data r)));
      cbn [fst snd data offset]; split; (reflexivity || tauto || lia).
  - cbn. tauto.
  - cbn. tauto.
  - cbn. split; [lia | reflexivity].
  - cbn. tauto.
  - unfold setOffset, state_after, bind, this, throw, set_offset.
    destruct (Z.ltb_spec o 0); destruct (Z.gtb_spec o (len (data r)));
      cbn [orb fst snd data offset]; split; (reflexivity || tauto || lia).
Qed.

(** X7: over a [Uint8Array], any sequence of operations in which
    [readBytes] is never given a negative length keeps the cursor inside
    [0 .. data.length]. *)
Lemma cursor_ok_sequence ops r :
  Forall is_byte (data r) -> Forall nonnegative_length ops -> cursor_ok r ->
  cursor_ok (fold_left (fun r op => perform op r) ops r).
Proof.
  intros Hd Hn. revert r Hd.
  induction Hn as [| op t H _ IH]; intros r Hd Hr; [exact Hr |].
  cbn [fold_left].
  destruct (cursor_ok_perform op r Hd H Hr) as [Hr' Ed].
  apply IH; [now rewrite Ed | exact Hr'].
Qed.

(** * Further properties of the reader *)

Lemma get_in_range d i :
  0 <= i < len d -> exists b, get d i = Some b.
Proof.
  intros Hi. unfold get.
  destruct (Z.leb_spec 0 i); [| lia]. destruct (Z.ltb_spec i (len d)); [| lia].
  cbn [andb]. destruct (nth_error d (Z.to_nat i)) as [b |] eqn:E; [now exists b |].
  apply nth_error_None in E. unfold len in *. lia.
Qed.

Lemma readUInt64_loop_returns r ixs value :
  Forall (fun i => 0 <= offset r + i < len (data r)) ixs ->
  exists v, readUInt64_loop r ixs value = Return v.
Proof.
  intros H. revert value. induction H as [| i t Hi _ IH]; intros value.
  - now exists value.
  - cbn [readUInt64_loop]. destruct (get_in_range _ _ Hi) as [b ->]. apply IH.
Qed.

Lemma create_in_range d o n :
  0 <= o -> 0 <= n -> o + n <= len d -> exists bs, DataView.create d o n = Some bs.
Proof.
  intros Ho Hn H. unfold DataView.create.
  destruct (Z.ltb_spec o 0); [lia |].
  destruct (Z.gtb_spec o (len d)); [lia |].
  destruct (Z.gtb_spec (o + n) (len d)); [lia |].
  cbn [orb]. eauto.
Qed.

Ltac fixed_ok w :=
  unfold op_failure, perform, failure, result_of, state_after,
    view, bind, this, throw, ret, set_offset; cbv beta;
  match goal with
  | |- context [offset ?r + w >? len (data ?r)] =>
      destruct (Z.gtb_spec (offset r + w) (len (data r))); [lia |];
      try (destruct (create_in_range (data r) (offset r) w) as [bs ->]; [lia ..|]);
      cbn [fst snd data offset]; split; reflexivity
  end.

Ltac fixed_ko w :=
  unfold op_failure, perform, failure, result_of, state_after,
    view, bind, this, throw, ret, set_offset, out_of_data; cbv beta;
  match goal with
  | |- context [offset ?r + w >? len (data ?r)] =>
      destruct (Z.gtb_spec (offset r + w) (len (data r))); [| lia];
      cbn [fst snd]; split; reflexivity
  end.

(** X4: a read of a fixed width returns exactly when that many bytes are
    left, and then moves the cursor by the width; otherwise it throws the
    out-of-data error of its type ([readBool]: of UInt8) and leaves the
    reader as it was. *)
Theorem fixed_read_bounds (op : reader_op) (r : PacketReader) (n : Z) (what : string) :
  0 <= offset r ->
  fixed_width op = Some (n, what) ->
  (offset r + n <= len (data r) ->
   op_failure op r = None /\ perform op r = mkReader (data r) (offset r + n)) /\
  (len (data r) < offset r + n ->
   op_failure op r = Some (out_of_data what) /\ perform op r = r).
Proof.
  intros Ho Hw.
  destruct op; cbn [fixed_width] in Hw; try discriminate;
    injection Hw as <- <-; split; intros H; cbn [op_failure perform].
  - unfold readUInt8. fixed_ok 1.
  - unfold readUInt8. fixed_ko 1.
  - unfold readUInt16. fixed_ok 2.
  - unfold readUInt16. fixed_ko 2.
  - unfold readUInt32. fixed_ok 4.
  - unfold readUInt32. fixed_ko 4.
  - unfold failure, result_of, state_after, readUInt64,
      bind, this, throw, ret, set_offset.
    destruct (Z.gtb_spec (offset r + 8) (len (data r))); [lia |].
    destruct (readUInt64_loop_returns r [0; 1; 2; 3; 4; 5; 6; 7] 0) as [v ->].
    { repeat (constructor; [lia |]). constructor. }
    cbn [fst snd data offset]. split; reflexivity.
  - unfold readUInt64. fixed_ko 8.
  - unfold readInt32. fixed_ok 4.
  - unfold readInt32. fixed_ko 4.
  - unfold readInt64. fixed_ok 8.
  - unfold readInt64. fixed_ko 8.
  - unfold readFloat32. fixed_ok 4.
  - unfold readFloat32. fixed_ko 4.
  - unfold readFloat64. fixed_ok 8.
  - unfold readFloat64. fixed_ko 8.
  - unfold readBool, readUInt8. fixed_ok 1.
  - unfold readBool, readUInt8. fixed_ko 1.
Qed.

Lemma fixed_read_bounds_witness :
  let r := mkReader [1; 2; 3; 4; 5] 2 in
  (op_failure RUInt16 r = None /\ perform RUInt16 r = mkReader [1; 2; 3; 4; 5] 4) /\
  (op_failure RInt32 r = Some (out_of_data "Int32") /\ perform RInt32 r = r).
Proof.
  intros r. split.
  - apply (proj1 (fixed_read_bounds RUInt16 r 2 "UInt16" ltac:(cbn; lia) eq_refl)).
    vm_compute. discriminate.
  - apply (proj2 (fixed_read_bounds RInt32 r 4 "Int32" ltac:(cbn; lia) eq_refl)).
    vm_compute. reflexivity.
Defined.

Lemma failure_throws {A} (m : method A) r e :
  failure m r = Some e -> result_of m r = Throw e.
Proof.
  unfold failure. destruct (result_of m r); [discriminate | now intros [= ->]].
Qed.

(** X5: whatever the state of the reader, an operation other than
    [readString] that throws leaves the reader as it was. *)
Theorem failed_operation_keeps_state (op : reader_op) (r : PacketReader) (e : exn) :
  op <> RString ->
  op_failure op r = Some e ->
  perform op r = r.
Proof.
  intros Hop H. destruct op; cbn [op_failure perform] in *;
    try (apply failure_throws in H).
  - eapply readUInt8_throws, H.
  - eapply readUInt16_throws, H.
  - eapply readUInt32_throws, H.
  - eapply readUInt64_throws, H.
  - eapply readInt32_throws, H.
  - eapply readInt64_throws, H.
  - eapply readFloat32_throws, H.
  - eapply readFloat64_throws, H.
  - eapply readBool_throws, H.
  - contradiction.
  - eapply readBytes_throws, H.
  - discriminate H.
  - discriminate H.
  - discriminate H.
  - discriminate H.
  - revert H. unfold result_of, state_after, setOffset, bind, this, throw, set_offset.
    destruct ((o <? 0) || (o >? len (data r))); cbn; [reflexivity | discriminate].
Qed.

Lemma failed_operation_keeps_state_witness :
  let r := mkReader [1; 2; 3] 1 in
  perform (RBytes 5) r = r /\ perform (RSetOffset 9) r = r /\ perform RUInt64 r = r.
Proof.
  intros r. split; [| split].
  - apply (failed_operation_keeps_state (RBytes 5) r (out_of_data "bytes"));
      [discriminate | reflexivity].
  - apply (failed_operation_keeps_state (RSetOffset 9) r
             (Error "PacketReader: Invalid offset")); [discriminate | reflexivity].
  - apply (failed_operation_keeps_state RUInt64 r (out_of_data "UInt64"));
      [discriminate | reflexivity].
Defined.

(** X6: [readString] throws in two ways only: the length prefix is not
    there, the error names UInt16 and the reader is as it was; or the
    prefix is read and the bytes it announces are not there, the error
    names the string and the two bytes of the prefix stay consumed. *)
Theorem readString_failure (r : PacketReader) (e : exn) :
  failure readString r = Some e ->
  (e = out_of_data "UInt16" /\ offset r + 2 > len (data r) /\
   state_after readString r = r) \/
  (e = out_of_data "string" /\ offset r + 2 <= len (data r) /\
   state_after readString r = mkReader (data r) (offset r + 2) /\
   exists length,
     result_of readUInt16 r = Return length /\
     offset r + 2 + length > len (data r)).
Proof.
  unfold failure, result_of, state_after, readString, readUInt16, bind, this, throw.
  destruct (Z.gtb_spec (offset r + 2) (len (data r))); cbn [fst snd].
  - intros [= <-]. left. repeat split. lia.
  - cbn [set_offset ret data offset fst snd].
    match goal with |- context [?a >? ?b] => destruct (Z.gtb_spec a b) end;
      cbn [fst snd].
    + intros [= <-]. right.
      split; [reflexivity | split; [lia | split; [reflexivity |]]].
      eexists. split; [reflexivity | lia].
    + discriminate.
Qed.

Lemma readString_failure_witness :
  let r := new_PacketReader [0x05; 0x00; 0x41] in
  (out_of_data "string" = out_of_data "UInt16" /\ offset r + 2 > len (data r) /\
   state_after readString r = r) \/
  (out_of_data "string" = out_of_data "string" /\ offset r + 2 <= len (data r) /\
   state_after readString r = mkReader (data r) (offset r + 2) /\
   exists length,
     result_of readUInt16 r = Return length /\
     offset r + 2 + length > len (data r)).
Proof.
  intros r. apply (readString_failure r (out_of_data "string")). reflexivity.
Defined.

(** No operation replaces the data. *)
Lemma data_perform op r : data (perform op r) = data r.
Proof.
  destruct op; cbn [perform];
    unfold state_after, readBool, readString, readUInt8, readUInt16, readUInt32,
      readUInt64, readInt32, readInt64, readFloat32, readFloat64, readBytes,
      isComplete, remaining, reset, getOffset, setOffset,
      view, bind, this, throw, ret, set_offset; cbv beta;
    repeat match goal with
    | |- context [if ?c then _ else _] => destruct c
    | |- context [match DataView.create ?d ?o ?n with _ => _ end] =>
        destruct (DataView.create d o n)
    | |- context [match readUInt64_loop ?r ?l ?v with _ => _ end] =>
        destruct (readUInt64_loop r l v)
    end;
    reflexivity.
Qed.

Lemma data_perform_all ops r : data (perform_all ops r) = data r.
Proof.
  unfold perform_all. revert r.
  induction ops as [| op t IH]; intros r; [reflexivity |].
  cbn [fold_left]. now rewrite IH, data_perform.
Qed.

(** X8: whatever was done to a reader, [reset] makes it the reader its
    constructor built: the data never changes and the cursor is 0 again,
    so every read repeats what it returned the first time. *)
Theorem reset_restores (ops : list reader_op) (r : PacketReader) :
  reset (perform_all ops r) = (Return tt, new_PacketReader (data r)).
Proof.
  unfold reset, set_offset, new_PacketReader. now rewrite data_perform_all.
Qed.

(** X9: an offset taken from [getOffset] while the cursor was inside the
    data can be given back to [setOffset] after any operations: the call
    returns and the reader is the one the offset was taken from. *)
Theorem setOffset_restores (ops : list reader_op) (r : PacketReader) (o : Z) :
  cursor_ok r ->
  getOffset r = (Return o, r) ->
  setOffset o (perform_all ops r) = (Return tt, r).
Proof.
  unfold cursor_ok, getOffset, bind, this, ret. intros Hr [= <-].
  unfold setOffset, bind, this, throw, set_offset. cbv beta.
  rewrite !data_perform_all.
  destruct (Z.ltb_spec (offset r) 0); [lia |].
  destruct (Z.gtb_spec (offset r) (len (data r))); [lia |].
  cbn [orb]. rewrite data_perform_all. now destruct r.
Qed.

Lemma setOffset_restores_witness :
  let r := mkReader [1; 2; 3; 4] 1 in
  setOffset 1 (perform_all [RUInt16; RBytes (-7); RUInt8] r) = (Return tt, r).
Proof.
  intros r. apply (setOffset_restores [RUInt16; RBytes (-7); RUInt8] r 1).
  - unfold cursor_ok. cbn. lia.
  - reflexivity.
Defined.





(** * Further properties of the writer *)

(** X11: writes only append.  Whether the writes return or one of them
    throws, the identifier is the one of the constructor and the buffer is
    the old buffer with bytes behind it; the only exception thrown is the
    [RangeError] of a spread that the engine does not take.  When every
    spread is one the engine takes, the writes return; and when they
    return, the buffer is the old buffer followed, in order, by the bytes
    of each write, which do not depend on what was written before. *)
Theorem writes_append_only {E : Engine} (ops : list write_op) (w : PacketWriter) :
  packetId (snd (writes ops w)) = packetId w /\
  (exists bs, buffer (snd (writes ops w)) = buffer w ++ bs) /\
  (forall e, fst (writes ops w) = Throw e -> e = RangeError /\ ~ Forall fits ops) /\
  (Forall fits ops -> fst (writes ops w) = Return tt) /\
  (fst (writes ops w) = Return tt ->
   buffer (snd (writes ops w)) = buffer w ++ flat_map encoding ops).
Proof.
  destruct (writes_grows ops w) as (bs & Hw & Hr).
  split; [now rewrite Hw | split; [exists bs; now rewrite Hw | split; [| split]]].
  - intros e He. split; [now apply (writes_exception ops w) |].
    intros F. rewrite writes_spec in He by exact F. discriminate.
  - intros F. now rewrite writes_spec.
  - intros R. rewrite Hw, (Hr R). reflexivity.
Qed.

Lemma writes_append_only_witness :
  let E := engine_131072 in
  let ops := [WUInt16 7; WBytes [1; 2; 3]; WString (Text.of_ascii "Hello")] in
  let w := new_PacketWriter 10001 in
  fst (writes ops w) = Return tt /\
  buffer (snd (writes ops w)) = buffer w ++ flat_map encoding ops.
Proof.
  intros E ops w.
  assert (F : Forall fits ops).
  { repeat (constructor; [vm_compute; discriminate |]). constructor. }
  pose proof (proj1 (proj2 (proj2 (proj2 (writes_append_only ops w)))) F) as R.
  split; [exact R |].
  exact (proj2 (proj2 (proj2 (proj2 (writes_append_only ops w)))) R).
Defined.

Lemma encoding_width op : len (encoding op) = width op.
Proof.
  unfold encoding. destruct op; cbn [width]; try reflexivity.
  rewrite len_app. reflexivity.
Qed.

Lemma len_flat_map_encoding ops :
  len (flat_map encoding ops) = fold_right Z.add 0 (map width ops).
Proof.
  induction ops as [| op t IH]; [reflexivity |].
  cbn [flat_map map fold_right]. now rewrite len_app, encoding_width, IH.
Qed.

(** X12: the size of a packet is known from its fields, when every string
    and byte array among them is one the engine takes in one call: the
    writes return, and the framed output has 4 bytes (header and
    identifier) plus the widths of the writes, a string counting 2 plus the
    length of its UTF-8 form. *)
Theorem packet_size {E : Engine} (id : Z) (ops : list write_op) :
  Forall fits ops ->
  let w := writes ops (new_PacketWriter id) in
  fst w = Return tt /\
  len (fst (getData (snd w))) = 2 + fold_right Z.add 0 (map width ops) /\
  len (fst (getBytes (snd w))) = 4 + fold_right Z.add 0 (map width ops).
Proof.
  intros F w. subst w. rewrite writes_spec by exact F.
  split; [reflexivity |]. cbn [snd].
  rewrite getBytes_length, getData_spec, len_from.
  rewrite new_PacketWriter_spec. unfold append; cbn [buffer].
  rewrite len_app, len_flat_map_encoding.
  change (len (le_bytes 2 id)) with 2. lia.
Qed.

Lemma packet_size_witness :
  let E := engine_131072 in
  let ops := [WBytes (repeat 0 (Z.to_nat 70000)); WString (Text.of_ascii "Hello");
              WFloat64 (S754_zero false)] in
  let w := writes ops (new_PacketWriter 10001) in
  fst w = Return tt /\
  len (fst (getData (snd w))) = 2 + (70000 + (7 + (8 + 0))) /\
  len (fst (getBytes (snd w))) = 4 + (70000 + (7 + (8 + 0))).
Proof.
  intros E ops.
  apply (packet_size 10001 ops).
  repeat (constructor; [vm_compute; discriminate |]). constructor.
Defined.

Lemma encoding_typed_bytes op : well_typed op -> Forall is_byte (encoding op).
Proof.
  unfold encoding. destruct op; cbn [well_typed]; intros H;
    try apply le_bytes_are_bytes.
  - constructor; [apply Z.mod_pos_bound; lia | constructor].
  - constructor; [destruct v; unfold is_byte; lia | constructor].
  - apply Forall_app. split; [apply le_bytes_are_bytes |].
    apply TextFacts.utf8_encode_bytes, TextFacts.to_scalars_scalar, H.
  - exact H.
Qed.

Lemma write_grows_bytes {E : Engine} op w :
  well_typed op ->
  exists bs, snd (write op w) = append bs w /\ Forall is_byte bs.
Proof.
  intros T. destruct (fits_dec op) as [F | F].
  - rewrite write_returns by exact F. exists (encoding op).
    split; [reflexivity | now apply encoding_typed_bytes].
  - rewrite write_throws by exact F. cbn [snd].
    destruct op;
      try (exists []; rewrite append_nil; split; [reflexivity | constructor]).
    eexists. split; [reflexivity | apply le_bytes_are_bytes].
Qed.

Lemma writes_grow_bytes {E : Engine} ops w :
  Forall well_typed ops ->
  exists bs, snd (writes ops w) = append bs w /\ Forall is_byte bs.
Proof.
  intros T. revert w. induction T as [| op ops Hop _ IH]; intros w.
  - exists []. cbn [writes snd]. unfold skip. rewrite append_nil.
    split; [reflexivity | constructor].
  - cbn [writes]. unfold and_then.
    destruct (write_grows_bytes op w Hop) as (b1 & E1 & B1).
    destruct (write op w) as [[[] | e] w1]; cbn [snd] in *; subst w1.
    + destruct (IH (append b1 w)) as (b2 & E2 & B2).
      exists (b1 ++ b2). rewrite E2, append_append.
      split; [reflexivity | apply Forall_app; now split].
    + now exists b1.
Qed.

(** X13: the buffer of a writer only ever holds bytes, whether its writes
    have returned or one of them has thrown, so the conversion to a
    [Uint8Array] in [getData] changes nothing and the framed output is the
    header followed by the buffer. *)
Theorem buffer_holds_bytes {E : Engine} (id : Z) (ops : list write_op) :
  Forall well_typed ops ->
  let w := snd (writes ops (new_PacketWriter id)) in
  Forall is_byte (buffer w) /\
  fst (getData w) = buffer w /\
  fst (getBytes w) = le_bytes 2 (len (buffer w)) ++ buffer w.
Proof.
  intros H w.
  assert (B : Forall is_byte (buffer w)).
  { subst w. destruct (writes_grow_bytes ops (new_PacketWriter id) H) as (bs & Hw & Hb).
    rewrite Hw, new_PacketWriter_spec.
    unfold append; cbn [buffer]. apply Forall_app.
    split; [apply le_bytes_are_bytes | exact Hb]. }
  split; [exact B |].
  rewrite getBytes_spec, getData_spec, from_bytes by exact B. split; reflexivity.
Qed.

Lemma buffer_holds_bytes_witness :
  let E := engine_131072 in
  let w := snd (writes [WUInt32 (-1); WString [0xD800; 0x41]; WBytes [7; 8]]
                  (new_PacketWriter 70000)) in
  Forall is_byte (buffer w) /\
  fst (getData w) = buffer w /\
  fst (getBytes w) = le_bytes 2 (len (buffer w)) ++ buffer w.
Proof.
  intros E.
  apply (buffer_holds_bytes 70000 [WUInt32 (-1); WString [0xD800; 0x41]; WBytes [7; 8]]).
  constructor; [exact I |].
  constructor; [| constructor; [| constructor]]; cbn [well_typed].
  - repeat (constructor; [unfold Text.code_unit; lia |]). constructor.
  - repeat (constructor; [unfold is_byte; lia |]). constructor.
Defined.

Lemma le_bytes_mod n v : le_bytes n (v mod 2 ^ (8 * Z.of_nat n)) = le_bytes n v.
Proof.
  revert v; induction n as [| n IH]; intros v; [reflexivity |].
  cbn [le_bytes].
  replace (8 * Z.of_nat (S n)) with (8 + 8 * Z.of_nat n) by lia.
  rewrite Z.pow_add_r by lia. change (2 ^ 8) with 256.
  assert (M : 0 < 2 ^ (8 * Z.of_nat n)) by (apply Z.pow_pos_nonneg; lia).
  rewrite Z.rem_mul_r by lia.
  rewrite <- (IH (v / 256)).
  generalize ((v / 256) mod 2 ^ (8 * Z.of_nat n)). intros x.
  f_equal; [| f_equal]; Z.to_euclidean_division_equations; lia.
Qed.

Lemma le_bytes_congr n a b :
  a mod 2 ^ (8 * Z.of_nat n) = b mod 2 ^ (8 * Z.of_nat n) ->
  le_bytes n a = le_bytes n b.
Proof. intros E. now rewrite <- (le_bytes_mod n a), E, le_bytes_mod. Qed.

(** X15: the two ways the writer lays out an integer agree: [writeInt32],
    through a [DataView], returns as [writeUInt32], through shifts and
    masks, returns, having appended the same bytes, and so do [writeInt64]
    and [writeUInt64], whatever the integer. *)
Theorem signed_writes_as_unsigned {E : Engine} (v : Z) (w : PacketWriter) :
  writeInt32 v w = writeUInt32 v w /\ writeInt64 v w = writeUInt64 v w.
Proof.
  rewrite writeUInt32_spec, writeUInt64_spec.
  unfold writeInt32, writeInt64, DataView.setInt32, DataView.setBigInt64.
  rewrite !push_all_small by (unfold len; now rewrite le_bytes_length).
  split; [| reflexivity]. do 2 f_equal.
  apply le_bytes_congr. apply (ToInt32_mod v 32). lia.
Qed.

Lemma asIntN64_range v : - 2 ^ 63 <= asIntN64 v < 2 ^ 63.
Proof.
  unfold asIntN64; cbv zeta.
  pose proof (Z.mod_pos_bound v (2 ^ 64) eq_refl).
  destruct (Z.leb_spec (2 ^ 63) (v mod 2 ^ 64)); lia.
Qed.

Lemma asIntN64_mod v : asIntN64 v mod 2 ^ 64 = v mod 2 ^ 64.
Proof.
  unfold asIntN64; cbv zeta.
  destruct (Z.leb_spec (2 ^ 63) (v mod 2 ^ 64)).
  - replace (v mod 2 ^ 64 - 2 ^ 64) with (v mod 2 ^ 64 + (-1) * 2 ^ 64) by lia.
    rewrite Z.mod_add by lia. apply Z.mod_mod. lia.
  - apply Z.mod_mod. lia.
Qed.

Lemma wrap_in_domain {E : Engine} op : is_integer op = true -> in_domain (wrap op).
Proof.
  destruct op; cbn [is_integer wrap in_domain]; try discriminate; intros _;
    try (apply Z.mod_pos_bound; lia).
  - apply ToInt32_range.
  - apply asIntN64_range.
Qed.

Lemma wrap_encoding op : encoding (wrap op) = encoding op.
Proof.
  unfold encoding. destruct op; cbn [wrap]; try reflexivity.
  - f_equal. apply Z.mod_mod. lia.
  - apply (le_bytes_mod 2).
  - apply (le_bytes_mod 4).
  - apply (le_bytes_mod 8).
  - unfold DataView.setInt32. f_equal. apply ToInt32_small, ToInt32_range.
  - unfold DataView.setBigInt64. apply le_bytes_congr, asIntN64_mod.
Qed.

(** X14: an integer write never fails and never writes outside its width:
    whatever integer it is given, it appends the bytes of that integer
    reduced into the range of the type (modulo 2^8, 2^16, 2^32, 2^64 for
    the unsigned writes, to the two's complement value for the signed
    ones), and that reduced value is what the matching read returns. *)
Theorem integer_write_wraps {E : Engine} (op : write_op) (w : PacketWriter) :
  is_integer op = true ->
  let d := fst (getData (snd (write op w))) in
  in_domain (wrap op) /\
  fst (write op w) = Return tt /\
  write op w = write (wrap op) w /\
  reads_back (wrap op) (mkReader d (len (buffer w))) (mkReader d (len d)).
Proof.
  intros H d. pose proof (wrap_in_domain op H) as Hd.
  assert (F : fits op).
  { unfold fits. pose proof max_arguments_min.
    destruct op; try discriminate H; cbn [spread];
      unfold len, DataView.setInt32, DataView.setBigInt64;
      rewrite ?le_bytes_length; lia. }
  assert (W : write op w = write (wrap op) w).
  { rewrite (write_returns op) by exact F.
    rewrite (write_returns (wrap op)) by now apply in_domain_fits.
    now rewrite wrap_encoding. }
  split; [exact Hd | split; [now rewrite write_returns | split; [exact W |]]].
  subst d. rewrite W, write_returns by now apply in_domain_fits.
  cbn [snd]. now apply written_then_read.
Qed.

Lemma integer_write_wraps_witness :
  let E := engine_131072 in
  let w := new_PacketWriter 1 in
  let d := fst (getData (snd (writeUInt32 (-1) w))) in
  fst (writeUInt32 (-1) w) = Return tt /\
  readUInt32 (mkReader d 2) = (Return 4294967295, mkReader d 6).
Proof.
  intros E w d.
  pose proof (integer_write_wraps (WUInt32 (-1)) w eq_refl) as (_ & R & _ & B).
  split; [exact R | exact B].
Defined.

Lemma le_bytes_app n m a b :
  0 <= a < 2 ^ (8 * Z.of_nat n) ->
  le_bytes (n + m) (a + 2 ^ (8 * Z.of_nat n) * b) = le_bytes n a ++ le_bytes m b.
Proof.
  revert a; induction n as [| n IH]; intros a Ha.
  - cbn [Nat.add le_bytes app]. change (2 ^ (8 * Z.of_nat 0)) with 1 in *.
    f_equal. lia.
  - cbn [Nat.add le_bytes app].
    replace (8 * Z.of_nat (S n)) with (8 + 8 * Z.of_nat n) in * by lia.
    rewrite Z.pow_add_r in * by lia. change (2 ^ 8) with 256 in *.
    assert (M : 0 < 2 ^ (8 * Z.of_nat n)) by (apply Z.pow_pos_nonneg; lia).
    replace (a + 256 * 2 ^ (8 * Z.of_nat n) * b)
      with (a + (2 ^ (8 * Z.of_nat n) * b) * 256) by ring.
    rewrite Z.mod_add, Z.div_add by lia.
    f_equal. apply IH.
    split; [apply Z.div_pos; lia |].
    apply Z.div_lt_upper_bound; lia.
Qed.

(** X16: the order on the wire is little-endian across the widths: an
    unsigned 16-bit value is its low byte followed by its high byte, an
    unsigned 32-bit value its low half followed by its high half, and an
    unsigned 64-bit value likewise. *)
Theorem low_half_first (lo hi : Z) (w : PacketWriter) :
  (0 <= lo < 2 ^ 8 ->
   (writeUInt8 lo >> writeUInt8 hi) w = writeUInt16 (lo + 2 ^ 8 * hi) w) /\
  (0 <= lo < 2 ^ 16 ->
   (writeUInt16 lo >> writeUInt16 hi) w = writeUInt32 (lo + 2 ^ 16 * hi) w) /\
  (0 <= lo < 2 ^ 32 ->
   (writeUInt32 lo >> writeUInt32 hi) w = writeUInt64 (lo + 2 ^ 32 * hi) w).
Proof.
  unfold and_then.
  rewrite !writeUInt8_spec, !writeUInt16_spec, !writeUInt32_spec, !writeUInt64_spec.
  rewrite !append_append.
  split; [| split]; intros H; do 2 f_equal; symmetry.
  - apply (le_bytes_app 1 1). exact H.
  - apply (le_bytes_app 2 2). exact H.
  - apply (le_bytes_app 4 4). exact H.
Qed.

Lemma low_half_first_witness :
  let w := new_PacketWriter 1 in
  (writeUInt8 0x34 >> writeUInt8 0x12) w = writeUInt16 0x1234 w /\
  (writeUInt16 0x5678 >> writeUInt16 0x1234) w = writeUInt32 0x12345678 w /\
  (writeUInt32 2 >> writeUInt32 1) w = writeUInt64 0x100000002 w.
Proof.
  intros w. split; [| split].
  - apply (proj1 (low_half_first 0x34 0x12 w)). lia.
  - apply (proj1 (proj2 (low_half_first 0x5678 0x1234 w))). lia.
  - apply (proj2 (proj2 (low_half_first 2 1 w))). lia.
Defined.

(** X17: dropping the first two bytes of the framed output, as
    [packet.slice(2)] does, gives the unframed output, whatever the writer
    holds (also when the header has wrapped). *)
Theorem framed_without_header (w : PacketWriter) :
  slice (fst (getBytes w)) 2 (len (fst (getBytes w))) = fst (getData w).
Proof.
  rewrite getBytes_spec, getData_spec.
  set (d := Uint8Array_from (buffer w)).
  rewrite len_app. change (len (le_bytes 2 (len (buffer w)))) with 2.
  pose proof (len_nonneg d).
  change 2 with (len (le_bytes 2 (len (buffer w)))) at 1 2.
  rewrite slice_firstn by lia.
  unfold len. rewrite Nat2Z.id. apply firstn_all.
Qed.

(** X18: a boolean is one byte: [writeBool] writes the byte 1 or 0, and
    [readBool] returns [true] for every byte that is not 0, so it reads
    the byte of any [writeUInt8 v] as [v mod 256 <> 0]. *)
Theorem bool_is_a_byte (b : bool) (v : Z) (w : PacketWriter) :
  let db := fst (getData (snd (writeBool b w))) in
  let dv := fst (getData (snd (writeUInt8 v w))) in
  fst (writeBool b w) = Return tt /\
  fst (writeUInt8 v w) = Return tt /\
  readUInt8 (mkReader db (len (buffer w))) =
    (Return (Some (if b then 1 else 0)), mkReader db (len db)) /\
  readBool (mkReader dv (len (buffer w))) =
    (Return (negb (v mod 256 =? 0)), mkReader dv (len dv)).
Proof.
  intros db dv. subst db dv.
  rewrite writeUInt8_spec, writeBool_spec. unfold append.
  split; [reflexivity | split; [reflexivity |]]. cbn [snd].
  rewrite !getData_spec; cbn [buffer]. rewrite !from_app, !len_app.
  rewrite <- (len_from (buffer w)).
  cbn [Uint8Array_from map app].
  rewrite readUInt8_at, readBool_at.
  rewrite Z.mod_mod by lia.
  split; [destruct b |]; reflexivity.
Qed.

(** * Strings on the wire *)

Lemma utf8_encode_cp_size c :
  Text.scalar c ->
  (c < 0x10000 -> (1 <= length (Text.utf8_encode_cp c) <= 3)%nat) /\
  (0x10000 <= c -> length (Text.utf8_encode_cp c) = 4%nat).
Proof.
  intros Hc. rewrite TextFacts.utf8_encode_cp_spec.
  destruct (Z.leb_spec c 0x7F); [cbn [length]; lia |].
  destruct (Z.leb_spec c 0x7FF); [cbn [length]; lia |].
  destruct (Z.leb_spec c 0xFFFF); cbn [length]; lia.
Qed.

(** Between one and three bytes for each code unit. *)
Lemma TextEncoder_size s :
  Forall Text.code_unit s ->
  len s <= len (Text.TextEncoder_encode s) <= 3 * len s.
Proof.
  unfold Text.TextEncoder_encode, len.
  assert (R : length (Text.utf8_encode_cp 0xFFFD) = 3%nat) by reflexivity.
  assert (U : forall c, Text.code_unit c -> Text.is_lead c = false ->
                        Text.is_trail c = false ->
                        (1 <= length (Text.utf8_encode_cp c) <= 3)%nat).
  { intros c Hc Hl Ht. apply utf8_encode_cp_size.
    - unfold Text.code_unit, Text.is_lead, Text.is_trail, Text.scalar in *.
      apply andb_false_iff in Hl, Ht. rewrite !Z.leb_gt in Hl, Ht. lia.
    - unfold Text.code_unit in Hc. lia. }
  induction s as [| c | c d t IHt IHd] using TextFacts.list_ind2; intros Hs.
  - cbn. lia.
  - inversion_clear Hs as [| ? ? Hc _]. cbn [Text.to_scalars].
    destruct (Text.is_lead c) eqn:Hl; [cbn; lia |].
    destruct (Text.is_trail c) eqn:Ht; [cbn; lia |].
    specialize (U c Hc Hl Ht). rewrite TextFacts.utf8_encode_cons.
    cbn [Text.utf8_encode flat_map]. rewrite length_app. cbn [length]. lia.
  - inversion Hs as [| ? ? Hc Hs']; subst. inversion Hs' as [| ? ? Hd Ht']; subst.
    specialize (IHt Ht'). specialize (IHd Hs').
    rewrite TextFacts.to_scalars_cons2.
    destruct (Text.is_lead c) eqn:Hl.
    + destruct (Text.is_trail d) eqn:Ht.
      * destruct (TextFacts.surrogate_pair c d Hl Ht) as [B _]. cbv zeta in B.
        rewrite TextFacts.utf8_encode_cons, length_app.
        match type of B with _ <= ?cp <= _ =>
          destruct (utf8_encode_cp_size cp) as [_ E4]; [unfold Text.scalar; lia |];
          rewrite E4 by lia
        end.
        cbn [length] in *. lia.
      * rewrite TextFacts.utf8_encode_cons, length_app, R.
        cbn [length] in *. lia.
    + destruct (Text.is_trail c) eqn:Ht.
      * rewrite TextFacts.utf8_encode_cons, length_app, R.
        cbn [length] in *. lia.
      * specialize (U c Hc Hl Ht).
        rewrite TextFacts.utf8_encode_cons, length_app.
        cbn [length] in *. lia.
Qed.

(** X19: the UTF-8 form of a string has between one and three bytes for
    each UTF-16 code unit.  When one call takes these bytes as its
    arguments, [writeString] returns and has appended the two bytes of the
    prefix and these bytes; when not, it throws a [RangeError] and has
    appended the two bytes of the prefix only. *)
Theorem writeString_size {E : Engine} (s : Text.jsstring) (w : PacketWriter) :
  Forall Text.code_unit s ->
  let n := len (Text.TextEncoder_encode s) in
  let w' := snd (writeString s w) in
  len s <= n <= 3 * len s /\
  (n <= max_arguments ->
   fst (writeString s w) = Return tt /\
   len (buffer w') = len (buffer w) + 2 + n) /\
  (max_arguments < n ->
   fst (writeString s w) = Throw RangeError /\
   len (buffer w') = len (buffer w) + 2).
Proof.
  intros Hs n w'. subst n w'.
  split; [exact (TextEncoder_size s Hs) | split; intros Hn].
  - rewrite writeString_spec by exact Hn. split; [reflexivity |].
    unfold append; cbn [snd buffer].
    rewrite !len_app. change (len (le_bytes 2 _)) with 2. lia.
  - rewrite writeString_over by exact Hn. split; [reflexivity |].
    unfold append; cbn [snd buffer].
    rewrite !len_app. change (len (le_bytes 2 _)) with 2. lia.
Qed.

Lemma writeString_size_witness :
  let E := engine_131072 in
  let s := [0x41; 0xE9; 0xE2A; 0xD83C; 0xDFAE] in
  let t := repeat 0x61 (Z.to_nat 200000) in
  let w := new_PacketWriter 1 in
  (fst (writeString s w) = Return tt /\
   len (buffer (snd (writeString s w))) = len (buffer w) + 2 + 10) /\
  (fst (writeString t w) = Throw RangeError /\
   len (buffer (snd (writeString t w))) = len (buffer w) + 2).
Proof.
  intros E s t w.
  assert (Hs : Forall Text.code_unit s).
  { repeat (constructor; [unfold Text.code_unit; lia |]). constructor. }
  assert (Ht : Forall Text.code_unit t)
    by (apply repeat_code_units; unfold Text.code_unit; lia).
  split.
  - apply (proj1 (proj2 (writeString_size s w Hs))). vm_compute. discriminate.
  - apply (proj2 (proj2 (writeString_size t w Ht))). vm_compute. reflexivity.
Defined.

(** X20: every well-formed string of at most 21845 UTF-16 code units that
    does not start with U+FEFF is written whole and read back as written:
    its UTF-8 form cannot exceed the 65535 bytes of the length prefix. *)
Theorem short_string_roundtrip {E : Engine} (s : Text.jsstring) (w : PacketWriter) :
  Forall Text.code_unit s -> Text.isWellFormed s = true -> hd 0 s <> 0xFEFF ->
  len s <= 21845 ->
  let d := fst (getData (snd (writeString s w))) in
  fst (writeString s w) = Return tt /\
  readString (mkReader d (len (buffer w))) = (Return s, mkReader d (len d)).
Proof.
  intros Hs Hw Hb Hl d.
  assert (D : in_domain (WString s)).
  { cbn [in_domain]. repeat split; try assumption.
    pose proof (TextEncoder_size s Hs). lia. }
  subst d. change (writeString s w) with (write (WString s) w).
  rewrite write_returns by now apply in_domain_fits.
  split; [reflexivity |]. cbn [snd].
  exact (written_then_read (WString s) w D).
Qed.

Lemma short_string_roundtrip_witness :
  let E := engine_131072 in
  let s := [0x48; 0x69; 0x20; 0xE2A; 0xE27; 0x20; 0xD83C; 0xDFAE] in
  let d := fst (getData (snd (writeString s (new_PacketWriter 1)))) in
  fst (writeString s (new_PacketWriter 1)) = Return tt /\
  readString (mkReader d 2) = (Return s, mkReader d 18).
Proof.
  intros E s d.
  refine (short_string_roundtrip s (new_PacketWriter 1) _ _ _ _).
  - repeat (constructor; [unfold Text.code_unit; lia |]). constructor.
  - reflexivity.
  - discriminate.
  - vm_compute. discriminate.
Defined.

(** * Packets cut short, and packets read in part *)






Lemma typed_encodings_bytes ops :
  Forall well_typed ops -> Forall is_byte (flat_map encoding ops).
Proof.
  induction 1 as [| op t H _ IH]; [constructor |].
  cbn [flat_map]. apply Forall_app. split; [now apply encoding_typed_bytes | exact IH].
Qed.

(** X2: a packet whose strings and byte arrays are each one that a call
    takes: the writes return; a reader that reads only the first fields
    gets them as written; it is then left with exactly the bytes of the
    fields it did not read, and it is complete only if there are none. *)
Theorem partial_read {E : Engine} (id : Z) (ops rest : list write_op) :
  Forall in_domain ops -> Forall well_typed rest -> Forall fits rest ->
  let w := writes (ops ++ rest) (new_PacketWriter id) in
  let d := fst (getData (snd w)) in
  let left := fold_right Z.add 0 (map width rest) in
  fst w = Return tt /\
  exists r1 r2,
    readUInt16 (new_PacketReader d) = (Return (id mod 65536), r1) /\
    reads_all ops r1 r2 /\
    remaining r2 = (Return left, r2) /\
    isComplete r2 = (Return (left =? 0), r2).
Proof.
  intros H Hr Hf w d left. subst w d left.
  rewrite writes_spec
    by (apply Forall_app; split; [now apply in_domain_all_fit | exact Hf]).
  split; [reflexivity |]. cbn [snd].
  rewrite new_PacketWriter_spec, getData_spec.
  unfold append; cbn [buffer].
  rewrite flat_map_app, <- len_flat_map_encoding.
  rewrite from_app, !from_bytes
    by (apply le_bytes_are_bytes ||
        (apply Forall_app; split;
         [now apply encodings_bytes | now apply typed_encodings_bytes])).
  set (bs := flat_map encoding ops). set (post := flat_map encoding rest).
  exists (mkReader (le_bytes 2 id ++ bs ++ post) 2),
         (mkReader (le_bytes 2 id ++ bs ++ post) (2 + len bs)).
  split; [| split; [| split]].
  - cbn [le_bytes app].
    rewrite readUInt16_bytes by (apply Z.mod_pos_bound; lia).
    do 2 f_equal. change 65536 with (256 * 256).
    rewrite Z.rem_mul_r by lia. reflexivity.
  - exact (write_read_all ops H (le_bytes 2 id) post).
  - unfold remaining, bind, this, ret; cbn [data offset].
    rewrite !len_app. change (len (le_bytes 2 id)) with 2.
    do 2 f_equal. lia.
  - unfold isComplete, bind, this, ret; cbn [data offset].
    rewrite !len_app. change (len (le_bytes 2 id)) with 2.
    do 2 f_equal. pose proof (len_nonneg post).
    destruct (Z.eqb_spec (2 + len bs) (2 + (len bs + len post)));
      destruct (Z.eqb_spec (len post) 0); try reflexivity; lia.
Qed.

Lemma partial_read_witness :
  let E := engine_131072 in
  let w := writes ([WUInt16 7] ++ [WBool true; WUInt8 300]) (new_PacketWriter 10001) in
  let d := fst (getData (snd w)) in
  fst w = Return tt /\
  exists r1 r2,
    readUInt16 (new_PacketReader d) = (Return (10001 mod 65536), r1) /\
    reads_all [WUInt16 7] r1 r2 /\
    remaining r2 = (Return 2, r2) /\
    isComplete r2 = (Return false, r2).
Proof.
  intros E.
  apply (partial_read 10001 [WUInt16 7] [WBool true; WUInt8 300]).
  - constructor; [cbn; lia | constructor].
  - repeat (constructor; [exact I |]). constructor.
  - repeat (constructor; [vm_compute; discriminate |]). constructor.
Defined.

Lemma roundtrip_packet_witness :
  let E := engine_131072 in
  let ops := [WString (Text.of_ascii "Hello"); WUInt32 12345; WBool true] in
  let d := fst (getData (snd (writes ops (new_PacketWriter 10001)))) in
  fst (writes ops (new_PacketWriter 10001)) = Return tt /\
  exists r1 r2,
    readUInt16 (new_PacketReader d) = (Return (10001 mod 65536), r1) /\
    reads_all ops r1 r2 /\
    isComplete r2 = (Return true, r2).
Proof.
  intros E ops.
  apply (roundtrip_packet 10001 ops).
  unfold ops.
  constructor; [| constructor; [cbn; lia | constructor; [exact I | constructor]]].
  apply hello_in_domain.
Defined.

Lemma cursor_ok_sequence_witness :
  let r := new_PacketReader [5; 0; 0x41; 1; 2; 3] in
  cursor_ok (fold_left (fun r op => perform op r)
               [RString; RUInt8; RBytes 1; RUInt64; RSetOffset 2; RInt32] r).
Proof.
  intros r.
  apply (cursor_ok_sequence [RString; RUInt8; RBytes 1; RUInt64; RSetOffset 2; RInt32] r).
  - repeat (constructor; [unfold is_byte; lia |]). constructor.
  - repeat (constructor; [cbn; try lia; exact I |]). constructor.
  - unfold cursor_ok. cbn. lia.
Defined.
